(** * photocatalog-api: the HTTP service (server.js) and the NAS indexer
      (index_nas.js), embedded as pure functions over an explicit store.

    Conventions of the embedding.
    - A JavaScript value that is either [undefined] or a string (a header,
      an environment variable, a login name) is an [option string];
      [truthy] is JavaScript's truthiness on such a value.  A password
      field of a JSON body and the [token] query parameter, on whose type
      the code depends, are a [value]: absent, a string, or anything else.
    - The two PostgreSQL tables are lists of rows; every [pool.query] is a
      function of the table that may also fail (the [catch] branches).
    - bcrypt, jsonwebtoken and mime-types are outside the repository, and
      so is the collation under which the store orders text: they are the
      fields of the [Externals] interface.
    - Node's [path.join] is modelled on path segments (POSIX flavour). *)

From Stdlib Require Import String Ascii List Bool Arith ZArith Lia.
From Stdlib Require Import Permutation Sorted.
Import ListNotations.
Open Scope list_scope.
Open Scope string_scope.

(** ** JavaScript values *)

Module JS.

(** [!!v] for a value that is [undefined] or a string. *)
Definition truthy (v : option string) : bool :=
  match v with
  | Some s => negb (s =? "")
  | None => false
  end.

(** [a !== b] for two such values. *)
Definition strict_neq (a b : option string) : bool :=
  match a, b with
  | Some x, Some y => negb (x =? y)
  | None, None => false
  | _, _ => true
  end.

(** The string behind a value already known to be truthy. *)
Definition str (v : option string) : string :=
  match v with
  | Some s => s
  | None => ""
  end.

(** A field of a JSON body or of a parsed query string: absent, a string,
    or anything else (null, a boolean, a number, an array, an object), of
    which only the truthiness matters to the code. *)
Inductive value : Type :=
| Undefined
| Str (s : string)
| Other (is_truthy : bool).

(** [!!v] for such a field. *)
Definition truthy_value (v : value) : bool :=
  match v with
  | Undefined => false
  | Str s => negb (s =? "")
  | Other is_truthy => is_truthy
  end.

(** A header as a field. *)
Definition of_header (h : option string) : value :=
  match h with
  | Some s => Str s
  | None => Undefined
  end.

(** [s.startsWith(p)] *)
Definition startsWith (p s : string) : bool := String.prefix p s.

(** [s.slice(n, s.length)] *)
Definition slice_from (n : nat) (s : string) : string :=
  String.substring n (String.length s - n) s.

(** JSON bodies, as far as the handlers build them. *)
#[local] Unset Elimination Schemes.
Inductive json : Type :=
| JStr (s : string)
| JNum (n : Z)
| JArr (items : list json)
| JObj (fields : list (string * json)).
#[local] Set Elimination Schemes.

(** A field whose value is [undefined] is dropped by [JSON.stringify]. *)
Definition opt_field (k : string) (v : option string) : list (string * json) :=
  match v with
  | Some s => [(k, JStr s)]
  | None => []
  end.

End JS.

(** ** Node's [path] module, POSIX flavour *)

Module Path.

Definition is_sep (c : ascii) : bool := Ascii.eqb c "/"%char.

(** [s.split('/')]: the segments between separators, empty ones included. *)
Fixpoint segments (s : string) : list string :=
  match s with
  | EmptyString => [""]
  | String c r =>
      if is_sep c then "" :: segments r
      else match segments r with
           | seg :: rest => String c seg :: rest
           | [] => [String c ""]
           end
  end.

(** One step of [normalizeString]: [stack] holds the segments kept so far,
    last one first. *)
Definition norm_step (allowAboveRoot : bool) (stack : list string) (seg : string)
  : list string :=
  if (seg =? "") || (seg =? ".") then stack
  else if seg =? ".." then
    match stack with
    | top :: below =>
        if top =? ".." then (if allowAboveRoot then ".." :: stack else stack)
        else below
    | [] => if allowAboveRoot then [".."] else []
    end
  else seg :: stack.

(** [normalizeString(path, allowAboveRoot, '/')], as the list of segments
    of its result. *)
Definition normalizeString (allowAboveRoot : bool) (segs : list string)
  : list string :=
  rev (fold_left (norm_step allowAboveRoot) segs []).

Definition isAbsolute (p : string) : bool :=
  match p with
  | String c _ => is_sep c
  | EmptyString => false
  end.

Fixpoint last_char (s : string) : option ascii :=
  match s with
  | EmptyString => None
  | String c EmptyString => Some c
  | String _ r => last_char r
  end.

Definition trailingSeparator (p : string) : bool :=
  match last_char p with
  | Some c => is_sep c
  | None => false
  end.

(** [path.posix.normalize] *)
Definition normalize (p : string) : string :=
  if p =? "" then "."
  else
    let abs := isAbsolute p in
    let trail := trailingSeparator p in
    let body := String.concat "/" (normalizeString (negb abs) (segments p)) in
    if body =? "" then
      (if abs then "/" else if trail then "./" else ".")
    else
      let body := if trail then body ++ "/" else body in
      if abs then "/" ++ body else body.

(** [path.posix.join(a, b)]: the non-empty arguments glued with a
    separator, then normalized. *)
Definition join (a b : string) : string :=
  if a =? "" then (if b =? "" then "." else normalize b)
  else if b =? "" then normalize a
  else normalize (a ++ "/" ++ b).

(** What the operating system opens for an absolute path: the walk from
    the root, where an empty segment and [.] stay in place and [..] moves
    to the parent (the root is its own parent).  Symbolic links are not
    modelled. *)
Definition fs_resolve (p : string) : list string :=
  normalizeString false (segments p).

Fixpoint is_prefix (xs ys : list string) : bool :=
  match xs, ys with
  | [], _ => true
  | x :: xs', y :: ys' => (x =? y) && is_prefix xs' ys'
  | _ :: _, [] => false
  end.

(** [p] names the directory [dir] itself or something below it. *)
Definition inside_dir (dir p : string) : bool :=
  is_prefix (fs_resolve dir) (fs_resolve p).

(** The path holds a NUL byte: [fs] refuses such a path with a throw. *)
Fixpoint has_nul (p : string) : bool :=
  match p with
  | EmptyString => false
  | String c r => Ascii.eqb c "000"%char || has_nul r
  end.

(** The filename has a [..] segment. *)
Definition has_dotdot (filename : string) : bool :=
  existsb (fun seg => seg =? "..") (segments filename).

(** No separator inside. *)
Fixpoint slash_free (s : string) : bool :=
  match s with
  | EmptyString => true
  | String c r => negb (is_sep c) && slash_free r
  end.

(** A segment that [normalizeString] keeps as a name. *)
Definition is_name (seg : string) : bool :=
  negb ((seg =? "") || (seg =? ".")) && negb (seg =? "..") && slash_free seg.

(** A segment that is neither empty nor [.]. *)
Definition kept (seg : string) : bool := negb ((seg =? "") || (seg =? ".")).

End Path.

(** ** The store: the two tables and the queries the code sends *)

Module Store.

(** A row of [usuarios]. *)
Record usuario_row : Type := mkUsuario {
  u_id : Z;
  u_usuario : string;
  u_senha_hash : string;
  u_nome_completo : option string
}.

(** A row of [catalogo_pecas]. *)
Record peca_row : Type := mkPeca {
  cod_peca : string;
  caminho_nas : string;
  data_indexacao : Z
}.

Record db : Type := mkDb {
  usuarios : list usuario_row;
  catalogo_pecas : list peca_row;
  next_id : Z
}.

(** The error an awaited call rejects with; [e_code] is its [code]
    property, when it has one. *)
Record js_error : Type := mkError {
  e_code : option string;
  e_message : string
}.

(** [SELECT * FROM usuarios WHERE usuario = $1] *)
Definition select_by_usuario (login : string) (d : db) : list usuario_row :=
  filter (fun r => u_usuario r =? login) (usuarios d).

(** [SELECT senha_hash FROM usuarios WHERE id = $1] *)
Definition select_by_id (id : Z) (d : db) : list usuario_row :=
  filter (fun r => Z.eqb (u_id r) id) (usuarios d).

Definition set_hash (h : string) (r : usuario_row) : usuario_row :=
  mkUsuario (u_id r) (u_usuario r) h (u_nome_completo r).

Definition with_usuarios (us : list usuario_row) (d : db) : db :=
  mkDb us (catalogo_pecas d) (next_id d).

Definition with_catalogo (cs : list peca_row) (d : db) : db :=
  mkDb (usuarios d) cs (next_id d).

(** [UPDATE usuarios SET senha_hash = $1 WHERE id = $2] *)
Definition update_hash_by_id (h : string) (id : Z) (d : db) : db :=
  with_usuarios
    (map (fun r => if Z.eqb (u_id r) id then set_hash h r else r) (usuarios d)) d.

(** [UPDATE usuarios SET senha_hash = $1 WHERE usuario = $2]; the second
    component is [rowCount]. *)
Definition update_hash_by_usuario (h login : string) (d : db) : db * nat :=
  (with_usuarios
     (map (fun r => if u_usuario r =? login then set_hash h r else r) (usuarios d)) d,
   List.length (select_by_usuario login d)).

(** [INSERT INTO usuarios ... RETURNING id]: the unique index on [usuario]
    rejects a second row with the same login (SQLSTATE 23505).  The id
    is drawn from the sequence before the index is checked, so a refused
    insert uses up an id: the store after it differs in [next_id]. *)
Definition insert_usuario (login h : string) (nome : option string) (d : db)
  : (js_error * db) + (db * Z) :=
  match select_by_usuario login d with
  | _ :: _ =>
      inl (mkError (Some "23505") "duplicate key value",
           mkDb (usuarios d) (catalogo_pecas d) (next_id d + 1))
  | [] =>
      inr (mkDb (usuarios d ++ [mkUsuario (next_id d) login h nome])%list
                (catalogo_pecas d) (next_id d + 1),
           next_id d)
  end.

(** [SELECT caminho_nas FROM catalogo_pecas WHERE cod_peca = $1] *)
Definition select_caminho (cod : string) (d : db) : list string :=
  map caminho_nas (filter (fun r => cod_peca r =? cod) (catalogo_pecas d)).

(** [ORDER BY cod_peca ASC]: the rows in ascending order of the collation
    of the column, [le] being its "comes before or ties with".  Which
    collation the database has is not part of the sources. *)
Fixpoint insert_sorted (le : string -> string -> bool) (c : string)
  (l : list string) : list string :=
  match l with
  | [] => [c]
  | x :: l' => if le c x then c :: l else x :: insert_sorted le c l'
  end.

Definition order_asc (le : string -> string -> bool) (l : list string)
  : list string :=
  fold_right (insert_sorted le) [] l.

(** [SELECT cod_peca FROM catalogo_pecas ORDER BY cod_peca ASC] *)
Definition select_all_cod_peca (le : string -> string -> bool) (d : db)
  : list string :=
  order_asc le (map cod_peca (catalogo_pecas d)).

(** The upsert of the indexer on the rows of [catalogo_pecas]:
    [INSERT ... ON CONFLICT (cod_peca) DO UPDATE SET caminho_nas =
    EXCLUDED.caminho_nas, data_indexacao = CURRENT_TIMESTAMP].  The table
    definition is not among the sources: a row that is inserted takes
    the time of the insert as its [data_indexacao]. *)
Fixpoint upsert (cod caminho : string) (now : Z) (rows : list peca_row)
  : list peca_row :=
  match rows with
  | [] => [mkPeca cod caminho now]
  | r :: rows' =>
      if cod_peca r =? cod then mkPeca (cod_peca r) caminho now :: rows'
      else r :: upsert cod caminho now rows'
  end.

(** The path stored for a part code, if any. *)
Fixpoint lookup (cod : string) (rows : list peca_row) : option string :=
  match rows with
  | [] => None
  | r :: rows' => if cod_peca r =? cod then Some (caminho_nas r) else lookup cod rows'
  end.

(** The timestamp stored for a part code, if any. *)
Fixpoint lookup_time (cod : string) (rows : list peca_row) : option Z :=
  match rows with
  | [] => None
  | r :: rows' =>
      if cod_peca r =? cod then Some (data_indexacao r) else lookup_time cod rows'
  end.

(** A table without its timestamps. *)
Definition paths (rows : list peca_row) : list (string * string) :=
  map (fun r => (cod_peca r, caminho_nas r)) rows.

Definition codes (rows : list peca_row) : list string := map cod_peca rows.

End Store.

(** ** server.js *)

Module Server.
Import JS Store.

(** The payload [{ id, usuario }] carried by a session token. *)
Record claims : Type := mkClaims {
  c_id : Z;
  c_usuario : string
}.

(** What the service relies on from outside the repository.  The
    packages: bcrypt on strings ([hash] draws a salt, here an argument),
    jsonwebtoken ([sign] and [verify] read the clock and throw, here
    [None]) and mime-types ([lookup] returns [false], here [None]).  The
    store: the collation of [cod_peca], as its "comes before or ties
    with". *)
Class Externals : Type := {
  bcrypt_hash : string -> nat -> string -> string;
  bcrypt_compare : string -> string -> bool;
  jwt_sign : claims -> option string -> Z -> option string;
  jwt_verify : string -> option string -> Z -> option claims;
  mime_lookup : string -> option string;
  collate_le : string -> string -> bool
}.

(** [process.env] as read at start-up. *)
Record config : Type := mkConfig {
  JWT_SECRET : option string;
  ADMIN_API_KEY : option string
}.

(** What a request carries, for all routes together.  The [token] query
    parameter is an array when it is given more than once, and a password
    of a JSON body can be of any JSON type: these are [value]s.  Headers
    are strings or absent; so are taken the login, the full name and the
    part code, which the code only tests and hands on to the store. *)
Record request : Type := mkRequest {
  h_authorization : option string;
  h_x_admin_key : option string;
  q_token : value;
  q_cod_peca : option string;
  p_codPeca : string;
  p_filename : string;
  b_usuario : option string;
  b_senha : value;
  b_nome_completo : option string;
  b_senhaAntiga : value;
  b_novaSenha : value
}.

(** What the outside world decides while a request is served: the clock,
    the salt bcrypt draws, whether the n-th query of the handler fails
    before it reaches the tables, and the file system ([fs_stream]: what
    a stream opened on a well-formed path ends in). *)
Record env : Type := mkEnv {
  now : Z;
  salt : string;
  query_error : nat -> option js_error;
  fs_readdir : string -> js_error + list string;
  fs_stream : string -> js_error + string
}.

Definition invalid_path : js_error :=
  mkError (Some "ERR_INVALID_ARG_VALUE") "path must be a string without null bytes".

(** What reading the file at a path gives: nothing can be read at a path
    with a NUL byte. *)
Definition fs_read (e : env) (p : string) : js_error + string :=
  if Path.has_nul p then inl invalid_path else fs_stream e p.

(** [Uncaught]: the answer of Express to an exception that no handler
    catches, status 500 with a body that is not JSON. *)
Inductive response : Type :=
| Json (status : Z) (body : json)
| FileStream (content_type path bytes : string)
| Uncaught.

Definition error_body (msg : string) : json := JObj [("error", JStr msg)].

(** The outcome of a middleware: [next()] with [req.user], or a response. *)
Inductive guard : Type :=
| Next (user : option claims)
| Reject (r : response).

Section Handlers.
Context {X : Externals} (cfg : config).

(** The token the middleware ends up checking, before the prefix is cut. *)
Definition raw_token (req : request) : value :=
  if negb (truthy (h_authorization req)) && truthy_value (q_token req)
  then q_token req
  else of_header (h_authorization req).

Definition strip_bearer (token : string) : string :=
  if startsWith "Bearer " token then slice_from 7 token else token.

(** [token.startsWith] is called outside the [try]: on a token that is
    not a string it throws, and nothing catches it. *)
Definition verifyToken (e : env) (req : request) : guard :=
  let token := raw_token req in
  if negb (truthy_value token) then
    Reject (Json 401 (error_body "Acesso negado. Token não fornecido."))
  else
    match token with
    | Str token =>
        match jwt_verify (strip_bearer token) (JWT_SECRET cfg) (now e) with
        | Some decoded => Next (Some decoded)
        | None => Reject (Json 403 (error_body "Token inválido ou expirado."))
        end
    | _ => Reject Uncaught
    end.

Definition verifyAdminKey (req : request) : guard :=
  let adminKey := h_x_admin_key req in
  if negb (truthy adminKey) || strict_neq adminKey (ADMIN_API_KEY cfg) then
    Reject (Json 403 (error_body "Acesso de administrador não autorizado."))
  else Next None.

(** [app.METHOD(path, middleware, handler)] *)
Definition guarded (g : guard) (handler : option claims -> db -> response * db)
  (d : db) : response * db :=
  match g with
  | Reject r => (r, d)
  | Next user => handler user d
  end.

Definition saltRounds : nat := 10.

(** [bcrypt.hash(data, saltRounds)] and [bcrypt.compare(data, hash)]:
    both reject when the data is not a string. *)
Definition hash_js (data : value) (e : env) : option string :=
  match data with
  | Str data => Some (bcrypt_hash data saltRounds (salt e))
  | _ => None
  end.

Definition compare_js (data : value) (hash : string) : option bool :=
  match data with
  | Str data => Some (bcrypt_compare data hash)
  | _ => None
  end.

(** POST /api/register *)
Definition register (e : env) (req : request) (d : db) : response * db :=
  if negb (truthy (b_usuario req)) || negb (truthy_value (b_senha req)) then
    (Json 400 (error_body "Usuário e senha são obrigatórios."), d)
  else
    let usuario := str (b_usuario req) in
    let answer_error (err : js_error) :=
      if strict_neq (e_code err) (Some "23505") then
        Json 500 (error_body "Erro interno ao criar usuário.")
      else Json 409 (error_body "Nome de usuário já existe.") in
    match hash_js (b_senha req) e with
    | None => (Json 500 (error_body "Erro interno ao criar usuário."), d)
    | Some senhaHash =>
        match query_error e 0 with
        | Some err => (answer_error err, d)
        | None =>
            match insert_usuario usuario senhaHash (b_nome_completo req) d with
            | inr (d', id) =>
                (Json 201 (JObj [("message", JStr "Usuário criado com sucesso!");
                                 ("userId", JNum id)]), d')
            | inl (err, d') => (answer_error err, d')
            end
        end
    end.

(** POST /api/login *)
Definition login (e : env) (req : request) (d : db) : response * db :=
  if negb (truthy (b_usuario req)) || negb (truthy_value (b_senha req)) then
    (Json 400 (error_body "Usuário e senha são obrigatórios."), d)
  else
    let usuario := str (b_usuario req) in
    let internal := Json 500 (error_body "Erro interno ao tentar fazer login.") in
    match query_error e 0 with
    | Some _ => (internal, d)
    | None =>
        match select_by_usuario usuario d with
        | [] => (Json 401 (error_body "Credenciais inválidas."), d)
        | user :: _ =>
            match compare_js (b_senha req) (u_senha_hash user) with
            | None => (internal, d)
            | Some false => (Json 401 (error_body "Credenciais inválidas."), d)
            | Some true =>
                match jwt_sign (mkClaims (u_id user) (u_usuario user))
                               (JWT_SECRET cfg) (now e) with
                | None => (internal, d)
                | Some token =>
                    let nome := if truthy (u_nome_completo user)
                                then str (u_nome_completo user)
                                else u_usuario user in
                    (Json 200 (JObj [("message", JStr ("Bem-vindo, " ++ nome ++ "!"));
                                     ("token", JStr token)]), d)
                end
            end
        end
    end.

(** GET /api/catalog/all, after the token check *)
Definition catalog_all (e : env) (d : db) : response * db :=
  match query_error e 0 with
  | Some _ => (Json 500 (error_body "Erro interno ao buscar lista de peças."), d)
  | None => (Json 200 (JArr (map JStr (select_all_cod_peca collate_le d))), d)
  end.

(** One element of [fotos]. *)
Definition foto (cod_peca file : string) : json :=
  JObj [("filename", JStr file);
        ("url", JStr ("/api/photo/" ++ cod_peca ++ "/" ++ file))].

Definition is_image (file : string) : bool :=
  match mime_lookup file with
  | Some mimeType => startsWith "image/" mimeType
  | None => false
  end.

Definition imageFiles (cod_peca : string) (files : list string) : list json :=
  map (foto cod_peca) (filter is_image files).

(** GET /api/search, after the token check *)
Definition search (e : env) (req : request) (d : db) : response * db :=
  if negb (truthy (q_cod_peca req)) then
    (Json 400 (error_body
       "O código da peça (cod_peca) é obrigatório na query URL."), d)
  else
    let cod_peca := str (q_cod_peca req) in
    let internal (err : js_error) :=
      Json 500 (JObj ([("error", JStr "Erro interno ao acessar o catálogo de arquivos.")]
                      ++ opt_field "details" (e_code err))%list) in
    match query_error e 0 with
    | Some err => (internal err, d)
    | None =>
        match select_caminho cod_peca d with
        | [] => (Json 404 (error_body "Código de peça não encontrado no catálogo."), d)
        | caminho_nas :: _ =>
            match fs_readdir e caminho_nas with
            | inl err => (internal err, d)
            | inr files =>
                (Json 200 (JObj [("cod_peca", JStr cod_peca);
                                 ("fotos", JArr (imageFiles cod_peca files))]), d)
            end
        end
    end.

(** GET /api/photo/:codPeca/:filename, after the token check.
    [fs.createReadStream] throws at once on a path with a NUL byte, and
    the outer [catch] answers; on any other path it returns a stream,
    which either fails before its first byte or is piped to the end. *)
Definition photo (e : env) (req : request) (d : db) : response * db :=
  let codPeca := p_codPeca req in
  let filename := p_filename req in
  let internal := Json 500 (error_body "Erro interno do servidor ao acessar a foto.") in
  match query_error e 0 with
  | Some _ => (internal, d)
  | None =>
      match select_caminho codPeca d with
      | [] => (Json 404 (error_body "Peça não encontrada no catálogo."), d)
      | caminho_nas :: _ =>
          let absolutePath := Path.join caminho_nas filename in
          let contentType :=
            match mime_lookup filename with
            | Some t => t
            | None => "image/jpeg"
            end in
          if Path.has_nul absolutePath then (internal, d)
          else
            match fs_stream e absolutePath with
            | inr bytes => (FileStream contentType absolutePath bytes, d)
            | inl err =>
                (Json 500 (JObj ([("error", JStr "Erro ao ler o arquivo da peça.")]
                                 ++ opt_field "details" (e_code err)
                                 ++ [("path_tried", JStr absolutePath)])%list), d)
            end
      end
  end.

(** POST /api/change-password, after the token check *)
Definition change_password (e : env) (req : request) (user : claims) (d : db)
  : response * db :=
  let userId := c_id user in
  if negb (truthy_value (b_senhaAntiga req)) || negb (truthy_value (b_novaSenha req))
  then
    (Json 400 (error_body "Senha antiga e nova senha são obrigatórias."), d)
  else
    let internal := Json 500 (error_body "Erro interno ao alterar a senha.") in
    match query_error e 0 with
    | Some _ => (internal, d)
    | None =>
        match select_by_id userId d with
        | [] => (Json 404 (error_body "Usuário não encontrado."), d)
        | row :: _ =>
            match compare_js (b_senhaAntiga req) (u_senha_hash row) with
            | None => (internal, d)
            | Some false => (Json 401 (error_body "Senha antiga incorreta."), d)
            | Some true =>
                match hash_js (b_novaSenha req) e with
                | None => (internal, d)
                | Some novaSenhaHash =>
                    match query_error e 1 with
                    | Some _ => (internal, d)
                    | None =>
                        (Json 200 (JObj [("message",
                                          JStr "Senha alterada com sucesso!")]),
                         update_hash_by_id novaSenhaHash userId d)
                    end
                end
            end
        end
    end.

(** POST /api/admin/reset-password, after the admin-key check *)
Definition admin_reset_password (e : env) (req : request) (d : db) : response * db :=
  if negb (truthy (b_usuario req)) || negb (truthy_value (b_novaSenha req)) then
    (Json 400 (error_body "Usuário-alvo e nova senha são obrigatórios."), d)
  else
    let usuario := str (b_usuario req) in
    let internal := Json 500 (error_body "Erro interno ao resetar a senha.") in
    match hash_js (b_novaSenha req) e with
    | None => (internal, d)
    | Some novaSenhaHash =>
        match query_error e 0 with
        | Some _ => (internal, d)
        | None =>
            let (d', rowCount) := update_hash_by_usuario novaSenhaHash usuario d in
            if Nat.eqb rowCount 0 then
              (Json 404 (error_body ("Usuário '" ++ usuario ++ "' não encontrado.")), d')
            else
              (Json 200 (JObj [("message",
                                JStr ("Senha para '" ++ usuario
                                      ++ "' resetada com sucesso."))]),
               d')
        end
    end.

(** The routes, each with its middleware. *)
Definition route_catalog_all (e : env) (req : request) : db -> response * db :=
  guarded (verifyToken e req) (fun _ => catalog_all e).

Definition route_search (e : env) (req : request) : db -> response * db :=
  guarded (verifyToken e req) (fun _ => search e req).

Definition route_photo (e : env) (req : request) : db -> response * db :=
  guarded (verifyToken e req) (fun _ => photo e req).

Definition route_change_password (e : env) (req : request) : db -> response * db :=
  guarded (verifyToken e req)
    (fun user d =>
       match user with
       | Some u => change_password e req u d
       | None => (Json 500 (error_body "Internal Server Error"), d)
       end).

Definition route_admin_reset_password (e : env) (req : request)
  : db -> response * db :=
  guarded (verifyAdminKey req) (fun _ => admin_reset_password e req).

End Handlers.

Definition status_of (r : response) : Z :=
  match r with
  | Json s _ => s
  | FileStream _ _ _ => 200
  | Uncaught => 500
  end.


(** The file a response streams: the path opened and the bytes sent. *)
Definition streamed (r : response) : option (string * string) :=
  match r with
  | FileStream _ path bytes => Some (path, bytes)
  | Json _ _ => None
  | Uncaught => None
  end.




End Server.

(** ** index_nas.js *)

Module Indexer.
Import JS Store.

Inductive stat_result : Type :=
| IsDirectory
| NotDirectory
| StatFails (err : js_error).

(** What the outside world decides during one run: whether the pool hands
    out a client, the listing of the root, what [fs.stat] answers for a
    path, whether the upsert of a part code fails, and the value that
    [CURRENT_TIMESTAMP] has at the moment the upsert of that part code
    runs in this run.  The clock belongs to the run: another run, or the
    same entries handled in another order, has a clock of its own. *)
Record world : Type := mkWorld {
  connect_ok : bool;
  readdir_root : js_error + list string;
  stat : string -> stat_result;
  upsert_error : string -> option js_error;
  clock : string -> Z
}.

(** The catalogue table and the two counters of [startIndexing]. *)
Record run_state : Type := mkRun {
  rows : list peca_row;
  indexedCount : nat;
  errorCount : nat
}.

(** The body of the callback given to [items.map].  The callbacks of one
    run touch different part codes, so running them one after the other
    in listing order reaches the state any interleaving reaches. *)
Definition process_item (root : string) (w : world) (st : run_state)
  (itemName : string) : run_state :=
  let itemPath := Path.join root itemName in
  match stat w itemPath with
  | StatFails _ => mkRun (rows st) (indexedCount st) (S (errorCount st))
  | NotDirectory => st
  | IsDirectory =>
      let cod_peca := itemName in
      let caminho_nas := itemPath in
      match upsert_error w cod_peca with
      | Some _ => mkRun (rows st) (indexedCount st) (S (errorCount st))
      | None =>
          mkRun (upsert cod_peca caminho_nas (clock w cod_peca) (rows st))
                (S (indexedCount st)) (errorCount st)
      end
  end.

Definition process_items (root : string) (w : world) (items : list string)
  (st : run_state) : run_state :=
  fold_left (process_item root w) items st.

(** [startIndexing()] on the table [rows0]: the table afterwards and the
    two counts printed at the end. *)
Definition startIndexing (root : string) (w : world) (rows0 : list peca_row)
  : run_state :=
  let st0 := mkRun rows0 0 0 in
  if negb (connect_ok w) then st0
  else
    match readdir_root w with
    | inl _ => st0
    | inr items => process_items root w items st0
    end.

(** The script: it leaves at once when [NAS_ROOT_PATH] is not set. *)
Definition main (NAS_ROOT_PATH : option string) (w : world) (rows0 : list peca_row)
  : option run_state :=
  if negb (truthy NAS_ROOT_PATH) then None
  else Some (startIndexing (str NAS_ROOT_PATH) w rows0).

(** How many entries of a listing each counter counts. *)
Definition is_indexed (root : string) (w : world) (itemName : string) : bool :=
  match stat w (Path.join root itemName), upsert_error w itemName with
  | IsDirectory, None => true
  | _, _ => false
  end.

Definition is_error (root : string) (w : world) (itemName : string) : bool :=
  match stat w (Path.join root itemName), upsert_error w itemName with
  | StatFails _, _ => true
  | IsDirectory, Some _ => true
  | _, _ => false
  end.

(** An entry that [stat] shows not to be a directory: the callback does
    nothing for it. *)
Definition is_passed_over (root : string) (w : world) (itemName : string) : bool :=
  match stat w (Path.join root itemName) with
  | NotDirectory => true
  | _ => false
  end.

End Indexer.

(** ** Concrete data for the examples *)

Module Fixture.
Import JS Store Server Indexer.

(** The text after the last dot of a name. *)
Fixpoint after_last_dot (s : string) : option string :=
  match s with
  | EmptyString => None
  | String c r =>
      match after_last_dot r with
      | Some ext => Some ext
      | None => if Ascii.eqb c "."%char then Some r else None
      end
  end.

(** Three entries of the table of mime-types. *)
Definition lookup_by_extension (file : string) : option string :=
  match after_last_dot file with
  | Some ext =>
      if ext =? "jpg" then Some "image/jpeg"
      else if ext =? "png" then Some "image/png"
      else if ext =? "txt" then Some "text/plain"
      else None
  | None => None
  end.

(** Stand-ins with the interface of the packages: a hash that verifies
    exactly the password it was made from, and tokens that name their
    user and their expiry. *)
Definition plain_hash (data : string) (rounds : nat) (salt : string) : string :=
  "$2b$" ++ data.

Definition plain_compare (data hash : string) : bool :=
  hash =? "$2b$" ++ data.

Definition day : Z := 86400.

Definition token_of (c : claims) (secret : option string) (now : Z) : option string :=
  match secret with
  | Some k => if k =? "" then None else Some (c_usuario c ++ "." ++ k)
  | None => None
  end.

Definition alice : claims := mkClaims 1 "alice".

(** Accepts the token made for [alice] under the same secret, for a day
    from time 0. *)
Definition check_token (token : string) (secret : option string) (now : Z)
  : option claims :=
  match secret with
  | Some k =>
      if (token =? "alice." ++ k) && negb (k =? "") && Z.ltb now day
      then Some alice else None
  | None => None
  end.

(** A store under the C collation, which compares byte by byte. *)
Definition externals : Externals :=
  Build_Externals plain_hash plain_compare token_of check_token lookup_by_extension
    String.leb.

(** A collation that, like en-US, puts [a] before [B]: letters are
    compared without their case first. *)
Definition lower_char (c : ascii) : ascii :=
  let n := nat_of_ascii c in
  if Nat.leb 65 n && Nat.leb n 90 then ascii_of_nat (n + 32) else c.

Fixpoint lower (s : string) : string :=
  match s with
  | EmptyString => EmptyString
  | String c r => String (lower_char c) (lower r)
  end.

Definition caseless_le (a b : string) : bool :=
  if lower a =? lower b then String.leb a b else String.leb (lower a) (lower b).

Definition externals_en_US : Externals :=
  Build_Externals plain_hash plain_compare token_of check_token lookup_by_extension
    caseless_le.

Definition cfg : config := mkConfig (Some "s3cret") (Some "adm1n").

Definition no_error : nat -> option js_error := fun _ => None.

Definition enoent : js_error := mkError (Some "ENOENT") "no such file or directory".

(** A share with two part folders and a stray file. *)
Definition nas_readdir (p : string) : js_error + list string :=
  if p =? "/mnt/nas/PN-100" then inr ["a.jpg"; "b.png"; "notes.txt"]
  else if p =? "/mnt/nas/PN-200" then inr ["secret.png"]
  else inl enoent.

Definition nas_read (p : string) : js_error + string :=
  if p =? "/mnt/nas/PN-100/a.jpg" then inr "JPEG-A"
  else if p =? "/mnt/nas/PN-200/secret.png" then inr "PNG-SECRET"
  else inl enoent.

Definition world0 : env := mkEnv 100 "salt" no_error nas_readdir nas_read.

Definition empty_request : request :=
  mkRequest None None Undefined None "" "" None Undefined None Undefined Undefined.

Definition with_bearer (req : request) : request :=
  mkRequest (Some "Bearer alice.s3cret") (h_x_admin_key req) (q_token req)
    (q_cod_peca req) (p_codPeca req) (p_filename req) (b_usuario req)
    (b_senha req) (b_nome_completo req) (b_senhaAntiga req) (b_novaSenha req).

Definition photo_request (cod file : string) : request :=
  mkRequest None None Undefined None cod file None Undefined None Undefined Undefined.

Definition search_request (cod : string) : request :=
  mkRequest None None Undefined (Some cod) "" "" None Undefined None
    Undefined Undefined.


(** A login whose password is a JSON number. *)
Definition login_request_number (usuario : string) : request :=
  mkRequest None None Undefined None "" "" (Some usuario) (Other true) None
    Undefined Undefined.

Definition change_request (antiga : string) (nova : option string) : request :=
  mkRequest None None Undefined None "" "" None Undefined None (Str antiga)
    (of_header nova).

Definition reset_request (key usuario nova : string) : request :=
  mkRequest None (Some key) Undefined None "" "" (Some usuario) Undefined None
    Undefined (Str nova).

Definition db0 : db :=
  mkDb [mkUsuario 1 "alice" (plain_hash "wonder" 10 "s") (Some "Alice A.");
        mkUsuario 2 "bob" (plain_hash "builder" 10 "s") None]
       [mkPeca "PN-200" "/mnt/nas/PN-200" 7; mkPeca "PN-100" "/mnt/nas/PN-100" 7]
       3.

(** The root of the example scenario of the indexer. *)
Definition nas_stat (p : string) : stat_result :=
  if (p =? "/mnt/nas/PN-100") || (p =? "/mnt/nas/PN-200") then IsDirectory
  else if p =? "/mnt/nas/readme.txt" then NotDirectory
  else StatFails enoent.

Definition nas_world (t : Z) : world :=
  mkWorld true (inr ["PN-100"; "PN-200"; "readme.txt"]) nas_stat
    (fun _ => None) (fun _ => t).

Definition register_request (usuario senha : string) (nome : option string)
  : request :=
  mkRequest None None Undefined None "" "" (Some usuario) (Str senha) nome
    Undefined Undefined.

Definition header_request (authorization : option string) (token : value)
  : request :=
  mkRequest authorization None token None "" "" None Undefined None
    Undefined Undefined.

Definition admin_request (key : option string) : request :=
  mkRequest None key Undefined None "" "" None Undefined None Undefined Undefined.

(** A catalogue with a part code in lower case. *)
Definition db_mixed : db :=
  mkDb [] [mkPeca "B-200" "/mnt/nas/B-200" 7; mkPeca "a-100" "/mnt/nas/a-100" 7] 1.


Definition eacces : js_error := mkError (Some "EACCES") "permission denied".

Definition unique_violation : js_error :=
  mkError (Some "23505") "duplicate key value violates unique constraint".

Definition failing (err : js_error) : nat -> option js_error := fun _ => Some err.

Definition world_down (err : js_error) : env :=
  mkEnv 100 "salt" (failing err) nas_readdir nas_read.

(** A root with a folder that cannot be inspected and a folder whose
    upsert fails, beside a good folder and a stray file. *)
Definition rough_stat (p : string) : stat_result :=
  if p =? "/mnt/nas/PN-100" then IsDirectory
  else if p =? "/mnt/nas/PN-300" then IsDirectory
  else if p =? "/mnt/nas/locked" then StatFails eacces
  else if p =? "/mnt/nas/readme.txt" then NotDirectory
  else StatFails enoent.

Definition rough_world (listing : list string) (t : Z) : world :=
  mkWorld true (inr listing) rough_stat
    (fun cod => if cod =? "PN-300" then Some unique_violation else None)
    (fun _ => t).

Definition rough_listing : list string :=
  ["locked"; "PN-300"; "readme.txt"; "PN-100"].

Definition stale_rows : list peca_row :=
  [mkPeca "PN-900" "/mnt/old/PN-900" 1; mkPeca "PN-300" "/mnt/old/PN-300" 1].

End Fixture.

(** * Properties *)

(** ** [path.join] and the walk of the file system *)

Module PathFacts.
Import Path.

Lemma segments_nonempty (s : string) : segments s <> [].
Proof.
  induction s as [|c r IH]; simpl; [discriminate|].
  destruct (is_sep c); [discriminate|].
  destruct (segments r); discriminate.
Qed.

(** Splitting at a separator splits the list of segments. *)
Lemma segments_cut (a b : string) :
  segments (a ++ String "/"%char b) = (segments a ++ segments b)%list.
Proof.
  induction a as [|c r IH]; simpl; [reflexivity|].
  rewrite IH. destruct (is_sep c); [reflexivity|].
  pose proof (segments_nonempty r) as Hne.
  destruct (segments r) as [|seg rest]; [contradiction|reflexivity].
Qed.

Lemma segments_glue (a b : string) :
  segments (a ++ "/" ++ b) = (segments a ++ segments b)%list.
Proof. exact (segments_cut a b). Qed.

Lemma segments_slash_free (s : string) :
  Forall (fun seg => slash_free seg = true) (segments s).
Proof.
  induction s as [|c r IH]; simpl.
  - repeat constructor.
  - destruct (is_sep c) eqn:Hc.
    + constructor; [reflexivity|exact IH].
    + destruct (segments r) as [|seg rest].
      * repeat constructor. simpl. now rewrite Hc.
      * inversion IH; subst. constructor; [|assumption].
        simpl. rewrite Hc. assumption.
Qed.

Lemma segments_of_slash_free (s : string) :
  slash_free s = true -> segments s = [s].
Proof.
  induction s as [|c r IH]; simpl; [reflexivity|].
  intros H. apply andb_true_iff in H as [Hc Hr].
  apply negb_true_iff in Hc. rewrite Hc, (IH Hr). reflexivity.
Qed.

Lemma norm_step_name (b : bool) (stack : list string) (seg : string) :
  is_name seg = true -> norm_step b stack seg = seg :: stack.
Proof.
  unfold is_name, norm_step. intros H.
  apply andb_true_iff in H as [H _]. apply andb_true_iff in H as [H1 H2].
  apply negb_true_iff in H1, H2. now rewrite H1, H2.
Qed.

Lemma norm_step_names (stack : list string) (seg : string) :
  slash_free seg = true ->
  Forall (fun s => is_name s = true) stack ->
  Forall (fun s => is_name s = true) (norm_step false stack seg).
Proof.
  intros Hseg Hst. unfold norm_step.
  destruct ((seg =? "") || (seg =? ".")) eqn:H1; [assumption|].
  destruct (seg =? "..") eqn:H2.
  - destruct stack as [|top below]; [constructor|].
    destruct (top =? ".."); [assumption|]. now inversion Hst.
  - constructor; [|assumption]. unfold is_name. now rewrite H1, H2, Hseg.
Qed.

Lemma fold_norm_names (segs stack : list string) :
  Forall (fun s => slash_free s = true) segs ->
  Forall (fun s => is_name s = true) stack ->
  Forall (fun s => is_name s = true) (fold_left (norm_step false) segs stack).
Proof.
  revert stack. induction segs as [|seg segs IH]; intros stack Hs Hst; simpl.
  - assumption.
  - inversion Hs; subst. apply IH; [assumption|]. now apply norm_step_names.
Qed.

(** Without allowance above the root, what is kept is a list of names. *)
Lemma normalizeString_names (p : string) :
  Forall (fun s => is_name s = true) (normalizeString false (segments p)).
Proof.
  unfold normalizeString. apply Forall_rev.
  apply fold_norm_names; [apply segments_slash_free|constructor].
Qed.

(** Segments that are empty or [.] leave the stack alone, names are pushed. *)
Lemma fold_norm_no_dotdot (b : bool) (segs stack : list string) :
  existsb (fun seg => seg =? "..") segs = false ->
  fold_left (norm_step b) segs stack = (rev (filter kept segs) ++ stack)%list.
Proof.
  revert stack. induction segs as [|seg segs IH]; intros stack H; simpl in *.
  - reflexivity.
  - apply orb_false_iff in H as [H1 H2]. rewrite (IH _ H2).
    unfold norm_step, kept. rewrite H1.
    destruct ((seg =? "") || (seg =? ".")); simpl; [reflexivity|].
    now rewrite <- app_assoc.
Qed.

Lemma filter_kept_names (l : list string) :
  Forall (fun s => is_name s = true) l -> filter kept l = l.
Proof.
  induction 1 as [|x l Hx _ IH]; simpl; [reflexivity|].
  unfold is_name in Hx. apply andb_true_iff in Hx as [Hx _].
  apply andb_true_iff in Hx as [Hx _]. fold (kept x) in Hx. now rewrite Hx, IH.
Qed.

Lemma no_dotdot_names (l : list string) :
  Forall (fun s => is_name s = true) l ->
  existsb (fun seg => seg =? "..") l = false.
Proof.
  induction 1 as [|x l Hx _ IH]; simpl; [reflexivity|].
  unfold is_name in Hx. apply andb_true_iff in Hx as [Hx _].
  apply andb_true_iff in Hx as [_ Hx]. apply negb_true_iff in Hx.
  now rewrite Hx, IH.
Qed.

(** The segments of names glued with separators are those names. *)
Lemma segments_concat (x : string) (l : list string) :
  Forall (fun s => is_name s = true) (x :: l) ->
  segments (String.concat "/" (x :: l)) = x :: l.
Proof.
  revert x. induction l as [|y l IH]; intros x H; inversion H as [|? ? Hx Hl]; subst.
  - simpl. apply segments_of_slash_free.
    unfold is_name in Hx. now apply andb_true_iff in Hx as [_ Hx].
  - change (String.concat "/" (x :: y :: l))
      with (x ++ "/" ++ String.concat "/" (y :: l)).
    rewrite segments_glue, (IH y Hl), segments_of_slash_free; [reflexivity|].
    unfold is_name in Hx. now apply andb_true_iff in Hx as [_ Hx].
Qed.

Lemma concat_empty (l : list string) :
  Forall (fun s => is_name s = true) l ->
  String.concat "/" l = "" -> l = [].
Proof.
  intros H. destruct l as [|x l]; [reflexivity|].
  inversion H as [|? ? Hx _]; subst. destruct x; [discriminate Hx|].
  destruct l; simpl; discriminate.
Qed.

Lemma resolve_names (pre post l : list string) :
  Forall (fun s => is_name s = true) l ->
  filter kept pre = [] -> filter kept post = [] ->
  existsb (fun seg => seg =? "..") pre = false ->
  existsb (fun seg => seg =? "..") post = false ->
  normalizeString false (pre ++ l ++ post) = l.
Proof.
  intros Hl Hpre Hpost Dpre Dpost. unfold normalizeString.
  rewrite fold_norm_no_dotdot.
  - rewrite app_nil_r, rev_involutive, !filter_app, Hpre, Hpost.
    simpl. now rewrite app_nil_r, filter_kept_names.
  - rewrite !existsb_app, Dpre, Dpost, (no_dotdot_names _ Hl). reflexivity.
Qed.

(** Walking an absolute path that [normalize] returned visits the names
    that [normalizeString] kept. *)
Lemma resolve_normalize (p : string) :
  isAbsolute p = true ->
  fs_resolve (normalize p) = normalizeString false (segments p).
Proof.
  intros Habs. unfold normalize. rewrite Habs. simpl negb.
  destruct (p =? "") eqn:Hp.
  { apply String.eqb_eq in Hp. subst. discriminate. }
  pose proof (normalizeString_names p) as Hn.
  set (l := normalizeString false (segments p)) in *.
  destruct (String.concat "/" l =? "") eqn:Hb.
  - apply String.eqb_eq in Hb. rewrite (concat_empty _ Hn Hb). reflexivity.
  - destruct l as [|x l']; [discriminate Hb|].
    unfold fs_resolve.
    destruct (trailingSeparator p).
    + change ("/" ++ String.concat "/" (x :: l') ++ "/")
        with ("" ++ "/" ++ (String.concat "/" (x :: l') ++ "/" ++ "")).
      rewrite !segments_glue, (segments_concat _ _ Hn).
      now apply (resolve_names [""] [""]).
    + change ("/" ++ String.concat "/" (x :: l'))
        with ("" ++ "/" ++ String.concat "/" (x :: l')).
      rewrite segments_glue, (segments_concat _ _ Hn).
      rewrite <- (app_nil_r (x :: l')) at 1.
      now apply (resolve_names [""] []).
Qed.

Lemma is_prefix_app (xs ys : list string) : is_prefix xs (xs ++ ys) = true.
Proof.
  induction xs as [|x xs IH]; simpl; [reflexivity|].
  now rewrite String.eqb_refl, IH.
Qed.

Lemma glue_absolute (a b : string) :
  isAbsolute a = true -> isAbsolute (a ++ "/" ++ b) = true.
Proof. destruct a; simpl; [discriminate|trivial]. Qed.

(** A filename without a [..] segment, joined to an absolute directory,
    resolves to the directory or below it. *)
Lemma join_stays_inside (dir filename : string) :
  isAbsolute dir = true ->
  has_dotdot filename = false ->
  inside_dir dir (join dir filename) = true.
Proof.
  intros Habs Hdd. unfold inside_dir, join.
  destruct (dir =? "") eqn:Hd.
  { apply String.eqb_eq in Hd. subst. discriminate. }
  destruct (filename =? "").
  - rewrite (resolve_normalize _ Habs). unfold fs_resolve.
    rewrite <- (app_nil_r (normalizeString false (segments dir))) at 2.
    apply is_prefix_app.
  - rewrite (resolve_normalize _ (glue_absolute _ _ Habs)), segments_glue.
    unfold fs_resolve, normalizeString.
    rewrite fold_left_app, (fold_norm_no_dotdot _ _ _ Hdd), rev_app_distr.
    apply is_prefix_app.
Qed.

End PathFacts.

(** ** The middlewares *)

Module AuthFacts.
Import JS Store Server.

Lemma substring_whole (s : string) : String.substring 0 (String.length s) s = s.
Proof. induction s as [|c s IH]; simpl; [reflexivity|now rewrite IH]. Qed.

(** The prefix is cut, and cut once. *)
Lemma strip_bearer_prefixed (t : string) : strip_bearer ("Bearer " ++ t) = t.
Proof.
  unfold strip_bearer, startsWith, slice_from. cbn.
  destruct t; [reflexivity|]. cbn. now rewrite substring_whole.
Qed.




Section Auth.
Context {X : Externals} (cfg : config).







End Auth.

(** C10. With no [ADMIN_API_KEY] in the environment, the admin-key check
    answers 403 whatever the [x-admin-key] header holds: the admin route
    answers 403 and leaves the store as it was. *)
Theorem verifyAdminKey_unconfigured {X : Externals} (jwt_secret : option string)
  (e : env) (req : request) (d : db) :
  let cfg := mkConfig jwt_secret None in
  verifyAdminKey cfg req =
    Reject (Json 403 (error_body "Acesso de administrador não autorizado.")) /\
  route_admin_reset_password cfg e req d =
    (Json 403 (error_body "Acesso de administrador não autorizado."), d).
Proof.
  assert (H : verifyAdminKey (mkConfig jwt_secret None) req =
    Reject (Json 403 (error_body "Acesso de administrador não autorizado."))).
  { unfold verifyAdminKey. simpl.
    destruct (h_x_admin_key req) as [k|]; simpl; [|reflexivity].
    now rewrite orb_true_r. }
  split; [exact H|].
  unfold route_admin_reset_password. now rewrite H.
Qed.

End AuthFacts.

(** ** The queries *)

Module StoreFacts.
Import Store.

Lemma ascii_compare_le_trans (a b c : ascii) :
  Ascii.compare a b <> Gt -> Ascii.compare b c <> Gt -> Ascii.compare a c <> Gt.
Proof.
  unfold Ascii.compare.
  destruct (N.compare_spec (N_of_ascii a) (N_of_ascii b));
    destruct (N.compare_spec (N_of_ascii b) (N_of_ascii c));
    destruct (N.compare_spec (N_of_ascii a) (N_of_ascii c));
    congruence || lia.
Qed.

Lemma compare_le_trans (s1 s2 s3 : string) :
  String.compare s1 s2 <> Gt -> String.compare s2 s3 <> Gt ->
  String.compare s1 s3 <> Gt.
Proof.
  revert s2 s3.
  induction s1 as [|a s1 IH]; intros [|b s2] [|c s3]; simpl; try congruence.
  unfold Ascii.compare.
  destruct (N.compare_spec (N_of_ascii a) (N_of_ascii b)) as [E1|L1|G1];
    destruct (N.compare_spec (N_of_ascii b) (N_of_ascii c)) as [E2|L2|G2];
    destruct (N.compare_spec (N_of_ascii a) (N_of_ascii c)) as [E3|L3|G3];
    try congruence; try lia.
  apply IH.
Qed.

Lemma leb_trans (s1 s2 s3 : string) :
  String.leb s1 s2 = true -> String.leb s2 s3 = true -> String.leb s1 s3 = true.
Proof.
  unfold String.leb. intros H1 H2.
  pose proof (compare_le_trans s1 s2 s3) as H.
  destruct (String.compare s1 s2); destruct (String.compare s2 s3);
    destruct (String.compare s1 s3); try congruence;
    exfalso; apply H; congruence.
Qed.

Section Order.
Variable le : string -> string -> bool.

Lemma insert_sorted_perm (c : string) (l : list string) :
  Permutation (insert_sorted le c l) (c :: l).
Proof.
  induction l as [|x l IH]; simpl; [reflexivity|].
  destruct (le c x); [reflexivity|].
  rewrite IH. apply perm_swap.
Qed.

Lemma order_asc_perm (l : list string) : Permutation (order_asc le l) l.
Proof.
  induction l as [|x l IH]; simpl; [reflexivity|].
  rewrite insert_sorted_perm. now constructor.
Qed.

(** A collation compares any two strings, and consistently. *)
Hypothesis le_total : forall a b, le a b = true \/ le b a = true.
Hypothesis le_trans : forall a b c, le a b = true -> le b c = true -> le a c = true.

Lemma insert_sorted_sorted (c : string) (l : list string) :
  StronglySorted (fun a b => le a b = true) l ->
  StronglySorted (fun a b => le a b = true) (insert_sorted le c l).
Proof.
  induction 1 as [|x l Hl IH Hx]; simpl.
  - repeat constructor.
  - destruct (le c x) eqn:Hcx.
    + constructor; [now constructor|].
      constructor; [exact Hcx|].
      eapply Forall_impl; [|exact Hx]. intros y Hy. eapply le_trans; eauto.
    + constructor; [exact IH|].
      eapply Permutation_Forall; [symmetry; apply insert_sorted_perm|].
      constructor; [|exact Hx].
      destruct (le_total c x) as [H|H]; congruence.
Qed.

Lemma order_asc_sorted (l : list string) :
  StronglySorted (fun a b => le a b = true) (order_asc le l).
Proof.
  induction l as [|x l IH]; simpl; [constructor|].
  now apply insert_sorted_sorted.
Qed.

End Order.

(** An update that matches no row changes nothing. *)
Lemma update_unknown_usuario (h login : string) (d : db) :
  select_by_usuario login d = [] ->
  update_hash_by_usuario h login d = (d, 0).
Proof.
  unfold update_hash_by_usuario, select_by_usuario, with_usuarios.
  destruct d as [us cs n]. simpl. intros H. rewrite H. simpl.
  do 2 f_equal.
  induction us as [|r rs IH]; simpl in *; [reflexivity|].
  destruct (u_usuario r =? login); [discriminate H|]. now rewrite IH.
Qed.


End StoreFacts.

(** ** The handlers *)

Module HandlerFacts.
Import JS Store Server.

Section Handlers.
Context {X : Externals} (cfg : config).

Lemma guarded_next (e : env) (req : request) (u : option claims)
  (handler : option claims -> db -> response * db) (d : db) :
  verifyToken cfg e req = Next u ->
  guarded (verifyToken cfg e req) handler d = handler u d.
Proof. intros H. now rewrite H. Qed.

(** C1, as the code has it. For a part code of the catalogue, the photo
    route opens exactly [path.join] of the stored directory and the
    filename and streams that file; when the stored directory is absolute
    and the filename has no [..] segment, that path is the directory or
    lies below it. *)
Theorem photo_path_is_join (e : env) (req : request) (d : db)
  (u : option claims) (dir : string) (others : list string) :
  verifyToken cfg e req = Next u ->
  query_error e 0 = None ->
  select_caminho (p_codPeca req) d = dir :: others ->
  let absolutePath := Path.join dir (p_filename req) in
  streamed (fst (route_photo cfg e req d)) =
    match fs_read e absolutePath with
    | inr bytes => Some (absolutePath, bytes)
    | inl _ => None
    end /\
  (Path.isAbsolute dir = true ->
   Path.has_dotdot (p_filename req) = false ->
   Path.inside_dir dir absolutePath = true).
Proof.
  intros Hu Hq Hsel absolutePath. split.
  - unfold route_photo. rewrite (guarded_next _ _ _ _ _ Hu).
    unfold photo, fs_read. rewrite Hq, Hsel. fold absolutePath.
    destruct (Path.has_nul absolutePath); [reflexivity|].
    destruct (fs_stream e absolutePath); reflexivity.
  - apply PathFacts.join_stays_inside.
Qed.


(** C5, as the code has it. When the old password is not one that bcrypt
    verifies against the hash stored for the caller, the store is left as
    it was; and when it is a non-empty string, the new password field is
    non-empty and the lookup succeeds, the answer is 401. *)
Theorem change_password_wrong_old (e : env) (req : request) (d : db)
  (u : claims) (row : usuario_row) (others : list usuario_row) :
  verifyToken cfg e req = Next (Some u) ->
  select_by_id (c_id u) d = row :: others ->
  (forall old, b_senhaAntiga req = Str old ->
               bcrypt_compare old (u_senha_hash row) = false) ->
  snd (route_change_password cfg e req d) = d /\
  (forall old,
     b_senhaAntiga req = Str old -> old <> "" ->
     truthy_value (b_novaSenha req) = true ->
     query_error e 0 = None ->
     fst (route_change_password cfg e req d) =
       Json 401 (error_body "Senha antiga incorreta.")).
Proof.
  intros Hu Hsel Hcmp. unfold route_change_password.
  rewrite (guarded_next _ _ _ _ _ Hu). unfold change_password.
  split.
  - destruct (negb (truthy_value (b_senhaAntiga req))
              || negb (truthy_value (b_novaSenha req))); [reflexivity|].
    destruct (query_error e 0); [reflexivity|].
    rewrite Hsel. unfold compare_js.
    destruct (b_senhaAntiga req) as [|old|t]; try reflexivity.
    now rewrite (Hcmp old eq_refl).
  - intros old Ha Hne Hn Hq. apply String.eqb_neq in Hne.
    rewrite Ha, Hn, Hq, Hsel. simpl. rewrite Hne. simpl.
    now rewrite (Hcmp old Ha).
Qed.


(** C7, as the code has it. When the part code is in the catalogue and
    its directory can be listed, the answer is 200 with [fotos] holding,
    in listing order, one entry per listed file whose media type starts
    with [image/], and the url of an entry is
    [/api/photo/{cod_peca}/{filename}]. *)
Theorem search_lists_images (e : env) (req : request) (d : db)
  (u : option claims) (dir : string) (others files : list string) :
  verifyToken cfg e req = Next u ->
  truthy (q_cod_peca req) = true ->
  query_error e 0 = None ->
  select_caminho (str (q_cod_peca req)) d = dir :: others ->
  fs_readdir e dir = inr files ->
  let cod := str (q_cod_peca req) in
  let names :=
    filter (fun file =>
              match mime_lookup file with
              | Some mimeType => String.prefix "image/" mimeType
              | None => false
              end) files in
  fst (route_search cfg e req d) =
    Json 200
      (JObj [("cod_peca", JStr cod);
             ("fotos",
              JArr (map (fun file =>
                           JObj [("filename", JStr file);
                                 ("url", JStr ("/api/photo/" ++ cod ++ "/" ++ file))])
                        names))]) /\
  (forall file,
     In file names <->
     In file files /\
     exists mimeType,
       mime_lookup file = Some mimeType /\ String.prefix "image/" mimeType = true).
Proof.
  intros Hu Hc Hq Hsel Hls cod names. split.
  - unfold route_search. rewrite (guarded_next _ _ _ _ _ Hu).
    unfold search. rewrite Hc, Hq. simpl negb. cbv iota.
    rewrite Hsel, Hls. reflexivity.
  - intros file. unfold names. rewrite filter_In.
    split; intros [Hin H]; (split; [exact Hin|]).
    + destruct (mime_lookup file) as [t|]; [eauto|discriminate].
    + destruct H as [t [-> Ht]]. exact Ht.
Qed.

(** C8, as the code has it. With the token accepted and the query
    answered, the catalogue route answers 200 with a flat array that holds
    every part code of [catalogo_pecas], once per row, in the order the
    store returns them: ascending in the collation of the column, which
    is the lexicographic order of the bytes when that collation is C. *)
Theorem catalog_all_sorted (e : env) (req : request) (d : db) (u : option claims) :
  verifyToken cfg e req = Next u ->
  query_error e 0 = None ->
  exists all_codes,
    route_catalog_all cfg e req d = (Json 200 (JArr (map JStr all_codes)), d) /\
    Permutation all_codes (codes (catalogo_pecas d)) /\
    ((forall a b, collate_le a b = true \/ collate_le b a = true) ->
     (forall a b c, collate_le a b = true -> collate_le b c = true ->
                    collate_le a c = true) ->
     StronglySorted (fun a b => collate_le a b = true) all_codes) /\
    ((forall a b, collate_le a b = String.leb a b) ->
     StronglySorted (fun a b => String.leb a b = true) all_codes).
Proof.
  intros Hu Hq. exists (select_all_cod_peca collate_le d).
  split; [|split; [|split]].
  - unfold route_catalog_all. rewrite (guarded_next _ _ _ _ _ Hu).
    unfold catalog_all. now rewrite Hq.
  - apply StoreFacts.order_asc_perm.
  - intros Htotal Htrans. now apply StoreFacts.order_asc_sorted.
  - intros Hc.
    assert (Hs : StronglySorted (fun a b => collate_le a b = true)
                   (select_all_cod_peca collate_le d)).
    { apply StoreFacts.order_asc_sorted.
      - intros a b. rewrite !Hc. apply String.leb_total.
      - intros a b c. rewrite !Hc. apply StoreFacts.leb_trans. }
    revert Hs. generalize (select_all_cod_peca collate_le d).
    induction 1 as [|x l _ IH Hx]; constructor; [exact IH|].
    eapply Forall_impl; [|exact Hx]. intros y Hy. now rewrite <- Hc.
Qed.

End Handlers.

End HandlerFacts.

(** ** The indexer *)

Module IndexerFacts.
Import Store Indexer.

Lemma lookup_upsert_same (cod p : string) (t : Z) (rs : list peca_row) :
  lookup cod (upsert cod p t rs) = Some p.
Proof.
  induction rs as [|r rs IH]; simpl.
  - now rewrite String.eqb_refl.
  - destruct (cod_peca r =? cod) eqn:Hr; simpl; now rewrite Hr.
Qed.

Lemma lookup_upsert_other (k cod p : string) (t : Z) (rs : list peca_row) :
  cod <> k -> lookup k (upsert cod p t rs) = lookup k rs.
Proof.
  intros Hne. apply String.eqb_neq in Hne.
  induction rs as [|r rs IH]; simpl.
  - now rewrite Hne.
  - destruct (cod_peca r =? cod) eqn:Hr; simpl.
    + apply String.eqb_eq in Hr. rewrite Hr, Hne. reflexivity.
    + now rewrite IH.
Qed.

Lemma lookup_time_upsert_same (cod p : string) (t : Z) (rs : list peca_row) :
  lookup_time cod (upsert cod p t rs) = Some t.
Proof.
  induction rs as [|r rs IH]; simpl.
  - now rewrite String.eqb_refl.
  - destruct (cod_peca r =? cod) eqn:Hr; simpl; now rewrite Hr.
Qed.

Lemma lookup_time_upsert_other (k cod p : string) (t : Z) (rs : list peca_row) :
  cod <> k -> lookup_time k (upsert cod p t rs) = lookup_time k rs.
Proof.
  intros Hne. apply String.eqb_neq in Hne.
  induction rs as [|r rs IH]; simpl.
  - now rewrite Hne.
  - destruct (cod_peca r =? cod) eqn:Hr; simpl.
    + apply String.eqb_eq in Hr. rewrite Hr, Hne. reflexivity.
    + now rewrite IH.
Qed.

(** Writing the path that is already there changes no path. *)
Lemma paths_upsert_same (cod p : string) (t : Z) (rs : list peca_row) :
  lookup cod rs = Some p -> paths (upsert cod p t rs) = paths rs.
Proof.
  induction rs as [|r rs IH]; simpl; [discriminate|].
  destruct (cod_peca r =? cod) eqn:Hr; simpl.
  - intros H. injection H as ->. reflexivity.
  - intros H. now rewrite (IH H).
Qed.

Lemma codes_upsert_known (cod p : string) (t : Z) (rs : list peca_row) :
  In cod (codes rs) -> codes (upsert cod p t rs) = codes rs.
Proof.
  induction rs as [|r rs IH]; simpl; [contradiction|].
  destruct (cod_peca r =? cod) eqn:Hr; simpl; [reflexivity|].
  intros [H|H]; [apply String.eqb_neq in Hr; contradiction|].
  now rewrite (IH H).
Qed.

Lemma codes_upsert_new (cod p : string) (t : Z) (rs : list peca_row) :
  ~ In cod (codes rs) -> codes (upsert cod p t rs) = (codes rs ++ [cod])%list.
Proof.
  induction rs as [|r rs IH]; simpl; [reflexivity|].
  intros H. destruct (cod_peca r =? cod) eqn:Hr.
  - apply String.eqb_eq in Hr. tauto.
  - simpl. rewrite IH; tauto.
Qed.

Lemma in_codes_upsert (c cod p : string) (t : Z) (rs : list peca_row) :
  In c (codes (upsert cod p t rs)) <-> c = cod \/ In c (codes rs).
Proof.
  destruct (in_dec string_dec cod (codes rs)) as [Hin|Hout].
  - rewrite (codes_upsert_known _ _ _ _ Hin). split; [tauto|].
    intros [->|H]; assumption.
  - rewrite (codes_upsert_new _ _ _ _ Hout), in_app_iff. simpl.
    split; intros H; intuition congruence.
Qed.

(** The unique index on [cod_peca] survives an upsert. *)
Lemma NoDup_upsert (cod p : string) (t : Z) (rs : list peca_row) :
  NoDup (codes rs) -> NoDup (codes (upsert cod p t rs)).
Proof.
  intros Hnd. destruct (in_dec string_dec cod (codes rs)) as [Hin|Hout].
  - now rewrite (codes_upsert_known _ _ _ _ Hin).
  - rewrite (codes_upsert_new _ _ _ _ Hout).
    apply NoDup_app; [exact Hnd|repeat constructor; simpl; tauto|].
    intros x Hx [<-|[]]. contradiction.
Qed.

Lemma Permutation_filter {A : Type} (f : A -> bool) (l l' : list A) :
  Permutation l l' -> Permutation (filter f l) (filter f l').
Proof.
  induction 1 as [|x l l' _ IH|x y l|l l' l'' _ IH1 _ IH2]; simpl.
  - constructor.
  - destruct (f x); [now constructor|exact IH].
  - destruct (f x), (f y); try reflexivity. apply perm_swap.
  - now transitivity (filter f l').
Qed.

Section Run.
Variables (root : string) (w : world).

Lemma process_item_rows (st : run_state) (item : string) :
  rows (process_item root w st item) =
  if is_indexed root w item
  then upsert item (Path.join root item) (clock w item) (rows st)
  else rows st.
Proof.
  unfold process_item, is_indexed.
  destruct (stat w (Path.join root item)); try reflexivity.
  destruct (upsert_error w item); reflexivity.
Qed.

Lemma process_item_counts (st : run_state) (item : string) :
  indexedCount (process_item root w st item) =
    indexedCount st + (if is_indexed root w item then 1 else 0) /\
  errorCount (process_item root w st item) =
    errorCount st + (if is_error root w item then 1 else 0).
Proof.
  unfold process_item, is_indexed, is_error.
  destruct (stat w (Path.join root item)); simpl; try lia.
  destruct (upsert_error w item); simpl; lia.
Qed.

(** Each counter counts the entries of its kind. *)
Lemma process_items_counts (items : list string) (st : run_state) :
  indexedCount (process_items root w items st) =
    indexedCount st + List.length (filter (is_indexed root w) items) /\
  errorCount (process_items root w items st) =
    errorCount st + List.length (filter (is_error root w) items).
Proof.
  revert st. induction items as [|x items IH]; intros st; simpl.
  - lia.
  - destruct (IH (process_item root w st x)) as [-> ->].
    destruct (process_item_counts st x) as [-> ->].
    destruct (is_indexed root w x), (is_error root w x); simpl; lia.
Qed.

Lemma step_keeps_path (k : string) (st : run_state) (item : string) :
  lookup k (rows st) = Some (Path.join root k) ->
  lookup k (rows (process_item root w st item)) = Some (Path.join root k).
Proof.
  intros H. rewrite process_item_rows.
  destruct (is_indexed root w item); [|exact H].
  destruct (string_dec item k) as [->|Hne].
  - apply lookup_upsert_same.
  - now rewrite lookup_upsert_other.
Qed.

Lemma run_keeps_path (k : string) (items : list string) (st : run_state) :
  lookup k (rows st) = Some (Path.join root k) ->
  lookup k (rows (process_items root w items st)) = Some (Path.join root k).
Proof.
  revert st. induction items as [|x items IH]; intros st H; simpl; [exact H|].
  apply IH. now apply step_keeps_path.
Qed.

(** After a run, every entry it indexed has its joined path in the table. *)
Lemma indexed_after_run (items : list string) (st : run_state) (item : string) :
  In item items -> is_indexed root w item = true ->
  lookup item (rows (process_items root w items st)) = Some (Path.join root item).
Proof.
  revert st. induction items as [|x items IH]; intros st Hin Hix; simpl.
  - contradiction.
  - destruct Hin as [->|Hin]; [|now apply IH].
    apply run_keeps_path. rewrite process_item_rows, Hix.
    apply lookup_upsert_same.
Qed.

Lemma step_keeps_time (k : string) (st : run_state) (item : string) :
  lookup_time k (rows st) = Some (clock w k) ->
  lookup_time k (rows (process_item root w st item)) = Some (clock w k).
Proof.
  intros H. rewrite process_item_rows.
  destruct (is_indexed root w item); [|exact H].
  destruct (string_dec item k) as [->|Hne].
  - apply lookup_time_upsert_same.
  - now rewrite lookup_time_upsert_other.
Qed.

(** ... and the timestamp of this run. *)
Lemma stamped_after_run (items : list string) (st : run_state) (item : string) :
  In item items -> is_indexed root w item = true ->
  lookup_time item (rows (process_items root w items st)) = Some (clock w item).
Proof.
  revert st. induction items as [|x items IH]; intros st Hin Hix; simpl.
  - contradiction.
  - destruct Hin as [->|Hin]; [|now apply IH].
    assert (H : lookup_time item (rows (process_item root w st item))
                = Some (clock w item)).
    { rewrite process_item_rows, Hix. apply lookup_time_upsert_same. }
    clear IH Hix. revert H. generalize (process_item root w st item).
    induction items as [|y items IH]; intros st' H; simpl; [exact H|].
    apply IH. now apply step_keeps_time.
Qed.

(** A run over entries whose paths are already stored changes no path. *)
Lemma rerun_keeps_paths (items : list string) (st : run_state) :
  (forall item, In item items -> is_indexed root w item = true ->
                lookup item (rows st) = Some (Path.join root item)) ->
  paths (rows (process_items root w items st)) = paths (rows st).
Proof.
  revert st. induction items as [|x items IH]; intros st Hinv; simpl.
  - reflexivity.
  - rewrite IH.
    + rewrite process_item_rows.
      destruct (is_indexed root w x) eqn:Hx; [|reflexivity].
      apply paths_upsert_same, Hinv; [now left|exact Hx].
    + intros item Hin Hix. apply step_keeps_path, Hinv; [now right|exact Hix].
Qed.

Lemma run_keeps_NoDup (items : list string) (st : run_state) :
  NoDup (codes (rows st)) ->
  NoDup (codes (rows (process_items root w items st))).
Proof.
  revert st. induction items as [|x items IH]; intros st H; simpl; [exact H|].
  apply IH. rewrite process_item_rows.
  destruct (is_indexed root w x); [now apply NoDup_upsert|exact H].
Qed.

(** The part codes after a run: those before, and the entries indexed. *)
Lemma in_codes_after_run (items : list string) (st : run_state) (c : string) :
  In c (codes (rows (process_items root w items st))) <->
  In c (codes (rows st)) \/ (In c items /\ is_indexed root w c = true).
Proof.
  revert st. induction items as [|x items IH]; intros st; simpl.
  - tauto.
  - rewrite IH, process_item_rows.
    destruct (is_indexed root w x) eqn:Hx.
    + rewrite in_codes_upsert. split.
      * intros [[-> | H]|[H1 H2]]; auto.
      * intros [H|[[-> | H1] H2]]; auto.
    + split.
      * intros [H|[H1 H2]]; auto.
      * intros [H|[[-> | H1] H2]]; auto. congruence.
Qed.

End Run.

Lemma is_indexed_ext (root : string) (w1 w2 : world) (item : string) :
  (forall p, stat w2 p = stat w1 p) ->
  (forall c, upsert_error w2 c = upsert_error w1 c) ->
  is_indexed root w2 item = is_indexed root w1 item.
Proof. intros Hs Hu. unfold is_indexed. now rewrite Hs, Hu. Qed.

Lemma is_error_ext (root : string) (w1 w2 : world) (item : string) :
  (forall p, stat w2 p = stat w1 p) ->
  (forall c, upsert_error w2 c = upsert_error w1 c) ->
  is_error root w2 item = is_error root w1 item.
Proof. intros Hs Hu. unfold is_error. now rewrite Hs, Hu. Qed.

(** C2, as the code has it. On a root that lists exactly the directories
    PN-100 and PN-200 and the regular file readme.txt, with every call
    succeeding, the run adds to the part codes of the table exactly PN-100
    and PN-200 (on an empty table these are the two entries it leaves),
    each with its joined path, and ends with 2 indexed and 0 skipped: an
    entry that is not a directory is passed over without being counted. *)
Theorem scenario_counts (root : string) (w : world) (items : list string)
  (rows0 : list peca_row) :
  connect_ok w = true ->
  readdir_root w = inr items ->
  Permutation items ["PN-100"; "PN-200"; "readme.txt"] ->
  stat w (Path.join root "PN-100") = IsDirectory ->
  stat w (Path.join root "PN-200") = IsDirectory ->
  stat w (Path.join root "readme.txt") = NotDirectory ->
  upsert_error w "PN-100" = None ->
  upsert_error w "PN-200" = None ->
  let result := startIndexing root w rows0 in
  (forall c, In c (codes (rows result)) <->
             In c (codes rows0) \/ c = "PN-100" \/ c = "PN-200") /\
  (rows0 = [] -> Permutation (codes (rows result)) ["PN-100"; "PN-200"]) /\
  lookup "PN-100" (rows result) = Some (Path.join root "PN-100") /\
  lookup "PN-200" (rows result) = Some (Path.join root "PN-200") /\
  indexedCount result = 2 /\
  errorCount result = 0.
Proof.
  intros Hc Hls Hperm H100 H200 Htxt Hu100 Hu200 result.
  assert (Hres : result = process_items root w items (mkRun rows0 0 0)).
  { unfold result, startIndexing. now rewrite Hc, Hls. }
  assert (I100 : is_indexed root w "PN-100" = true)
    by (unfold is_indexed; now rewrite H100, Hu100).
  assert (I200 : is_indexed root w "PN-200" = true)
    by (unfold is_indexed; now rewrite H200, Hu200).
  assert (Itxt : is_indexed root w "readme.txt" = false)
    by (unfold is_indexed; now rewrite Htxt).
  assert (E100 : is_error root w "PN-100" = false)
    by (unfold is_error; now rewrite H100, Hu100).
  assert (E200 : is_error root w "PN-200" = false)
    by (unfold is_error; now rewrite H200, Hu200).
  assert (Etxt : is_error root w "readme.txt" = false)
    by (unfold is_error; now rewrite Htxt).
  assert (Hin : forall c, In c items <->
                          c = "PN-100" \/ c = "PN-200" \/ c = "readme.txt").
  { intros c. split.
    - intros H. apply (Permutation_in _ Hperm) in H. simpl in H.
      intuition congruence.
    - intros H. apply (Permutation_in _ (Permutation_sym Hperm)). simpl.
      intuition congruence. }
  assert (Hcodes : forall c, In c (codes (rows result)) <->
                             In c (codes rows0) \/ c = "PN-100" \/ c = "PN-200").
  { intros c. rewrite Hres, in_codes_after_run, Hin. simpl. split.
    - intros [H|[[-> | [-> | ->]] Hix]]; auto. congruence.
    - intros [H|[-> | ->]]; auto. }
  split; [exact Hcodes|]. split; [|rewrite Hres; repeat split].
  - intros ->. apply NoDup_Permutation.
    + rewrite Hres. apply run_keeps_NoDup. constructor.
    + repeat constructor; simpl; intuition discriminate.
    + intros c. rewrite Hcodes. simpl. intuition congruence.
  - apply indexed_after_run; [apply Hin; auto|exact I100].
  - apply indexed_after_run; [apply Hin; auto|exact I200].
  - destruct (process_items_counts root w items (mkRun rows0 0 0)) as [-> _].
    rewrite (Permutation_length (Permutation_filter _ _ _ Hperm)).
    simpl. now rewrite I100, I200, Itxt.
  - destruct (process_items_counts root w items (mkRun rows0 0 0)) as [_ ->].
    rewrite (Permutation_length (Permutation_filter _ _ _ Hperm)).
    simpl. now rewrite E100, E200, Etxt.
Qed.

(** C9. A second run over a root that answers as in the first run (same
    listing, same [stat] answers, same upsert outcomes; only the clock
    moved) leaves the part codes and their paths as the first run left
    them and ends with the same counts; the entries it indexes carry the
    timestamp of the second run; an upsert makes its path the one stored
    for its code and adds no second row for a code already there, so a
    table with one row per code keeps one row per code. *)
Theorem reindex_idempotent (root : string) (w1 w2 : world) (rows0 : list peca_row) :
  connect_ok w2 = connect_ok w1 ->
  readdir_root w2 = readdir_root w1 ->
  (forall p, stat w2 p = stat w1 p) ->
  (forall c, upsert_error w2 c = upsert_error w1 c) ->
  let first := startIndexing root w1 rows0 in
  let second := startIndexing root w2 (rows first) in
  paths (rows second) = paths (rows first) /\
  indexedCount second = indexedCount first /\
  errorCount second = errorCount first /\
  (NoDup (codes rows0) ->
   NoDup (codes (rows first)) /\ NoDup (codes (rows second))) /\
  (forall items item,
     connect_ok w2 = true -> readdir_root w2 = inr items ->
     In item items -> is_indexed root w2 item = true ->
     lookup_time item (rows second) = Some (clock w2 item)) /\
  (forall cod p t rs,
     lookup cod (upsert cod p t rs) = Some p /\
     (In cod (codes rs) -> codes (upsert cod p t rs) = codes rs)).
Proof.
  intros Hc Hls Hs Hu first second.
  unfold second, first, startIndexing. rewrite Hc, Hls.
  destruct (connect_ok w1); simpl;
    [destruct (readdir_root w1) as [err|items]|]; simpl.
  - repeat split; auto using lookup_upsert_same, codes_upsert_known.
    intros items item _ H. discriminate H.
  - repeat split.
    + apply (rerun_keeps_paths root w2 items
               (mkRun (rows (process_items root w1 items (mkRun rows0 0 0))) 0 0)).
      intros item Hin Hix.
      rewrite (is_indexed_ext root w1 w2 item Hs Hu) in Hix.
      now apply indexed_after_run.
    + destruct (process_items_counts root w2 items
                  (mkRun (rows (process_items root w1 items (mkRun rows0 0 0))) 0 0))
        as [-> _].
      destruct (process_items_counts root w1 items (mkRun rows0 0 0)) as [-> _].
      simpl. f_equal. apply filter_ext. intros item.
      now apply is_indexed_ext.
    + destruct (process_items_counts root w2 items
                  (mkRun (rows (process_items root w1 items (mkRun rows0 0 0))) 0 0))
        as [_ ->].
      destruct (process_items_counts root w1 items (mkRun rows0 0 0)) as [_ ->].
      simpl. f_equal. apply filter_ext. intros item.
      now apply is_error_ext.
    + now apply run_keeps_NoDup.
    + apply run_keeps_NoDup. now apply run_keeps_NoDup.
    + intros items' item _ Heq Hin Hix. injection Heq as <-.
      now apply stamped_after_run.
    + apply lookup_upsert_same.
    + apply codes_upsert_known.
  - repeat split; auto using lookup_upsert_same, codes_upsert_known.
    intros items item H. discriminate H.
Qed.

End IndexerFacts.

(** ** The theorems at concrete requests, and the inputs on which the
       specification and the code part ways *)

Module Examples.
Import JS Store Server Indexer Fixture.

Example join_plain : Path.join "/mnt/nas" "PN-100" = "/mnt/nas/PN-100".
Proof. reflexivity. Qed.

Example join_relative : Path.join "a/b/" "../../../c/" = "../c/".
Proof. reflexivity. Qed.

Example join_above_root : Path.join "/a" "../../etc/passwd" = "/etc/passwd".
Proof. reflexivity. Qed.

(** A photo of PN-100 asked for by its name. *)
Lemma photo_path_is_join_witness :
  streamed (fst (route_photo (X := externals) cfg world0
                   (with_bearer (photo_request "PN-100" "a.jpg")) db0))
    = Some ("/mnt/nas/PN-100/a.jpg", "JPEG-A") /\
  Path.inside_dir "/mnt/nas/PN-100" "/mnt/nas/PN-100/a.jpg" = true.
Proof.
  destruct (HandlerFacts.photo_path_is_join (X := externals) cfg world0
              (with_bearer (photo_request "PN-100" "a.jpg")) db0
              (Some alice) "/mnt/nas/PN-100" [] eq_refl eq_refl eq_refl)
    as [Hstream Hinside].
  split; [exact Hstream|exact (Hinside eq_refl eq_refl)].
Defined.

(** The filename [../PN-200/secret.png], which a client sends as
    [..%2FPN-200%2Fsecret.png], asked of PN-100: the route streams a file
    of another directory. *)
Lemma photo_escapes_directory :
  let req := with_bearer (photo_request "PN-100" "../PN-200/secret.png") in
  select_caminho (p_codPeca req) db0 = ["/mnt/nas/PN-100"] /\
  Path.has_dotdot (p_filename req) = true /\
  streamed (fst (route_photo (X := externals) cfg world0 req db0))
    = Some ("/mnt/nas/PN-200/secret.png", "PNG-SECRET") /\
  Path.inside_dir "/mnt/nas/PN-100" "/mnt/nas/PN-200/secret.png" = false.
Proof. vm_compute. repeat split. Qed.

(** The example scenario of the indexer. *)
Lemma scenario_counts_witness :
  let result := startIndexing "/mnt/nas" (nas_world 5) [] in
  Permutation (codes (rows result)) ["PN-100"; "PN-200"] /\
  lookup "PN-100" (rows result) = Some "/mnt/nas/PN-100" /\
  lookup "PN-200" (rows result) = Some "/mnt/nas/PN-200" /\
  indexedCount result = 2 /\
  errorCount result = 0.
Proof.
  destruct (IndexerFacts.scenario_counts "/mnt/nas" (nas_world 5)
              ["PN-100"; "PN-200"; "readme.txt"] []
              eq_refl eq_refl (Permutation_refl _)
              eq_refl eq_refl eq_refl eq_refl eq_refl)
    as [_ [Hfresh Hrest]].
  split; [exact (Hfresh eq_refl)|exact Hrest].
Defined.

(** In that scenario the count of skipped entries is 0, not 1. *)
Lemma scenario_skipped_is_zero :
  let result := startIndexing "/mnt/nas" (nas_world 5) [] in
  codes (rows result) = ["PN-100"; "PN-200"] /\
  indexedCount result = 2 /\
  errorCount result = 0 /\
  errorCount result <> 1.
Proof. vm_compute. repeat split. discriminate. Qed.





(** A wrong old password, with a new password. *)
Lemma change_password_wrong_old_witness :
  let req := with_bearer (change_request "wander" (Some "rabbit")) in
  snd (route_change_password (X := externals) cfg world0 req db0) = db0 /\
  fst (route_change_password (X := externals) cfg world0 req db0) =
    Json 401 (error_body "Senha antiga incorreta.").
Proof.
  assert (Hold : forall old,
            b_senhaAntiga (with_bearer (change_request "wander" (Some "rabbit")))
              = Str old ->
            bcrypt_compare (Externals := externals) old
              (plain_hash "wonder" 10 "s") = false).
  { intros old H. injection H as <-. reflexivity. }
  destruct (HandlerFacts.change_password_wrong_old (X := externals) cfg world0
              (with_bearer (change_request "wander" (Some "rabbit"))) db0
              alice
              (mkUsuario 1 "alice" (plain_hash "wonder" 10 "s") (Some "Alice A.")) []
              eq_refl eq_refl Hold)
    as [Hdb Hresp].
  split; [exact Hdb|].
  apply (Hresp "wander"); try reflexivity. discriminate.
Defined.

(** A wrong old password, without a new password: the answer is 400. *)
Lemma change_password_wrong_old_400 :
  let req := with_bearer (change_request "wander" None) in
  verifyToken (X := externals) cfg world0 req = Next (Some alice) /\
  map u_senha_hash (select_by_id (c_id alice) db0) = [plain_hash "wonder" 10 "s"] /\
  bcrypt_compare (Externals := externals) "wander" (plain_hash "wonder" 10 "s")
    = false /\
  route_change_password (X := externals) cfg world0 req db0 =
    (Json 400 (error_body "Senha antiga e nova senha são obrigatórias."), db0) /\
  status_of (fst (route_change_password (X := externals) cfg world0 req db0))
    <> 401%Z.
Proof. vm_compute. repeat split. discriminate. Qed.



(** The example scenario of the search. *)
Lemma search_lists_images_witness :
  fst (route_search (X := externals) cfg world0
         (with_bearer (search_request "PN-100")) db0) =
  Json 200
    (JObj [("cod_peca", JStr "PN-100");
           ("fotos",
            JArr [JObj [("filename", JStr "a.jpg");
                        ("url", JStr "/api/photo/PN-100/a.jpg")];
                  JObj [("filename", JStr "b.png");
                        ("url", JStr "/api/photo/PN-100/b.png")]])]).
Proof.
  exact (proj1 (HandlerFacts.search_lists_images (X := externals) cfg world0
                  (with_bearer (search_request "PN-100")) db0 (Some alice)
                  "/mnt/nas/PN-100" [] ["a.jpg"; "b.png"; "notes.txt"]
                  eq_refl eq_refl eq_refl eq_refl eq_refl)).
Defined.

(** In that scenario the urls start with [/api/photo/], not with
    [/photo/]. *)
Lemma search_url_has_api_prefix :
  exists rest,
    fst (route_search (X := externals) cfg world0
           (with_bearer (search_request "PN-100")) db0) =
    Json 200
      (JObj [("cod_peca", JStr "PN-100");
             ("fotos",
              JArr (JObj [("filename", JStr "a.jpg");
                          ("url", JStr "/api/photo/PN-100/a.jpg")] :: rest))]) /\
    "/api/photo/PN-100/a.jpg" <> "/photo/PN-100/a.jpg".
Proof. eexists. split; [vm_compute; reflexivity|discriminate]. Qed.

(** The catalogue of the fixture, stored out of order, in a store under
    the C collation. *)
Lemma catalog_all_sorted_witness :
  exists all_codes,
    route_catalog_all (X := externals) cfg world0 (with_bearer empty_request) db0
    = (Json 200 (JArr (map JStr all_codes)), db0) /\
    Permutation all_codes ["PN-200"; "PN-100"] /\
    StronglySorted (fun a b => String.leb a b = true) all_codes.
Proof.
  destruct (HandlerFacts.catalog_all_sorted (X := externals) cfg world0
              (with_bearer empty_request) db0 (Some alice) eq_refl eq_refl)
    as [all_codes [Hresp [Hperm [_ Hbytes]]]].
  exists all_codes. split; [exact Hresp|]. split; [exact Hperm|].
  apply Hbytes. reflexivity.
Defined.

(** A catalogue with the codes B-200 and a-100 in a store whose collation
    puts [a] before [B], as en-US does: the answer lists a-100 first,
    which is not the lexicographic order of the two strings. *)
Lemma catalog_all_collation :
  fst (route_catalog_all (X := externals_en_US) cfg world0
         (with_bearer empty_request) db_mixed)
  = Json 200 (JArr [JStr "a-100"; JStr "B-200"]) /\
  String.leb "a-100" "B-200" = false.
Proof. vm_compute. split; reflexivity. Qed.

Example catalog_all_example :
  fst (route_catalog_all (X := externals) cfg world0 (with_bearer empty_request) db0)
  = Json 200 (JArr [JStr "PN-100"; JStr "PN-200"]).
Proof. reflexivity. Qed.

(** Two runs over the example root, at times 5 and 9. *)
Lemma reindex_idempotent_witness :
  let first := startIndexing "/mnt/nas" (nas_world 5) [] in
  let second := startIndexing "/mnt/nas" (nas_world 9) (rows first) in
  paths (rows second) = paths (rows first) /\
  indexedCount second = indexedCount first /\
  errorCount second = errorCount first /\
  NoDup (codes (rows second)) /\
  lookup_time "PN-100" (rows second) = Some 9%Z.
Proof.
  destruct (IndexerFacts.reindex_idempotent "/mnt/nas" (nas_world 5) (nas_world 9) []
              eq_refl eq_refl (fun _ => eq_refl) (fun _ => eq_refl))
    as [Hpaths [Hix [Herr [Hnodup [Htime _]]]]].
  split; [exact Hpaths|]. split; [exact Hix|]. split; [exact Herr|].
  split; [exact (proj2 (Hnodup (NoDup_nil _)))|].
  exact (Htime ["PN-100"; "PN-200"; "readme.txt"] "PN-100"
           eq_refl eq_refl (or_introl eq_refl) eq_refl).
Defined.

Example reindex_example :
  rows (startIndexing "/mnt/nas" (nas_world 9)
          (rows (startIndexing "/mnt/nas" (nas_world 5) []))) =
  [mkPeca "PN-100" "/mnt/nas/PN-100" 9; mkPeca "PN-200" "/mnt/nas/PN-200" 9].
Proof. reflexivity. Qed.

End Examples.

(** * More of the service *)

(** ** The middlewares, in full *)

Module AuthMore.
Import JS Store Server.

Section Auth.
Context {X : Externals} (cfg : config).

(** X1. A token reaches [jwt.verify] unchanged by any of its three
    transports: the header with the [Bearer ] prefix, the bare header, and
    the [token] query parameter of a request without a header; and a
    request with a non-empty header is judged by the header alone. *)
Theorem token_transports (e : env) (req_bearer req_bare req_query : request)
  (t : string) :
  t <> "" ->
  startsWith "Bearer " t = false ->
  h_authorization req_bearer = Some ("Bearer " ++ t) ->
  h_authorization req_bare = Some t ->
  truthy (h_authorization req_query) = false ->
  q_token req_query = Str t ->
  let outcome :=
    match jwt_verify t (JWT_SECRET cfg) (now e) with
    | Some decoded => Next (Some decoded)
    | None => Reject (Json 403 (error_body "Token inválido ou expirado."))
    end in
  verifyToken cfg e req_bearer = outcome /\
  verifyToken cfg e req_bare = outcome /\
  verifyToken cfg e req_query = outcome.
Proof.
  intros Ht Hnp Hb Hh Hq1 Hq2 outcome.
  assert (Htr : truthy (Some t) = true).
  { simpl. apply negb_true_iff. now apply String.eqb_neq. }
  assert (Htv : truthy_value (Str t) = true) by exact Htr.
  assert (Hbt : truthy (Some ("Bearer " ++ t)) = true) by reflexivity.
  assert (Hbv : truthy_value (Str ("Bearer " ++ t)) = true) by reflexivity.
  assert (Hbare : strip_bearer t = t) by (unfold strip_bearer; now rewrite Hnp).
  unfold verifyToken, raw_token. repeat split.
  - rewrite Hb, Hbt. cbv beta iota zeta delta [negb andb of_header].
    rewrite Hbv. cbv beta iota zeta delta [negb].
    now rewrite AuthFacts.strip_bearer_prefixed.
  - rewrite Hh, Htr. cbv beta iota zeta delta [negb andb of_header].
    rewrite Htv. cbv beta iota zeta delta [negb]. now rewrite Hbare.
  - rewrite Hq1, Hq2, Htv. cbv beta iota zeta delta [negb andb].
    rewrite Htv. cbv beta iota zeta delta [negb]. now rewrite Hbare.
Qed.

(** X2. The admin-key check lets a request through exactly when its
    [x-admin-key] header is a non-empty string equal to the configured
    key; any other request is answered 403. *)
Theorem verifyAdminKey_accepts_iff (req : request) :
  (verifyAdminKey cfg req = Next None <->
   exists k, k <> "" /\ h_x_admin_key req = Some k /\ ADMIN_API_KEY cfg = Some k) /\
  (verifyAdminKey cfg req = Next None \/
   verifyAdminKey cfg req =
     Reject (Json 403 (error_body "Acesso de administrador não autorizado."))).
Proof.
  unfold verifyAdminKey.
  destruct (h_x_admin_key req) as [k|]; destruct (ADMIN_API_KEY cfg) as [a|]; simpl.
  - destruct (String.eqb_spec k ""); simpl.
    + split; [|now right]. split; [discriminate|].
      intros [k' [Hk' [Hh _]]]. congruence.
    + destruct (String.eqb_spec k a); simpl.
      * split; [|now left]. split; [|reflexivity].
        intros _. exists k. subst. auto.
      * split; [|now right]. split; [discriminate|].
        intros [k' [_ [Hh Ha]]]. congruence.
  - rewrite orb_true_r. split; [|now right]. split; [discriminate|].
    intros [k' [_ [_ Ha]]]. discriminate.
  - split; [|now right]. split; [discriminate|].
    intros [k' [_ [Hh _]]]. discriminate.
  - split; [|now right]. split; [discriminate|].
    intros [k' [_ [Hh _]]]. discriminate.
Qed.

End Auth.

End AuthMore.

(** ** The two updates, row by row *)

Module StoreMore.
Import Store.

Lemma select_by_id_updated (h : string) (id : Z) (d : db) :
  select_by_id id (update_hash_by_id h id d) = map (set_hash h) (select_by_id id d).
Proof.
  unfold update_hash_by_id, select_by_id. simpl.
  induction (usuarios d) as [|r rs IH]; simpl; [reflexivity|].
  destruct (Z.eqb (u_id r) id) eqn:Hr; simpl; rewrite Hr, IH; reflexivity.
Qed.

Lemma select_by_id_other (h : string) (id id' : Z) (d : db) :
  id' <> id ->
  select_by_id id' (update_hash_by_id h id d) = select_by_id id' d.
Proof.
  intros Hne. unfold update_hash_by_id, select_by_id. simpl.
  induction (usuarios d) as [|r rs IH]; simpl; [reflexivity|].
  destruct (Z.eqb (u_id r) id) eqn:Hr; simpl; rewrite IH; [|reflexivity].
  apply Z.eqb_eq in Hr. rewrite Hr.
  destruct (Z.eqb_spec id id'); [congruence|reflexivity].
Qed.

Lemma select_by_usuario_other (h login login' : string) (d : db) :
  login' <> login ->
  select_by_usuario login' (fst (update_hash_by_usuario h login d)) =
  select_by_usuario login' d.
Proof.
  intros Hne. unfold update_hash_by_usuario, select_by_usuario. simpl.
  induction (usuarios d) as [|r rs IH]; simpl; [reflexivity|].
  destruct (u_usuario r =? login) eqn:Hr; simpl; rewrite IH; [|reflexivity].
  apply String.eqb_eq in Hr. rewrite Hr.
  destruct (String.eqb_spec login login'); [congruence|reflexivity].
Qed.

(** Neither update adds, drops, renumbers or renames a row. *)
Lemma update_by_id_keeps_names (h : string) (id : Z) (d : db) :
  map (fun r => (u_id r, u_usuario r, u_nome_completo r))
      (usuarios (update_hash_by_id h id d)) =
  map (fun r => (u_id r, u_usuario r, u_nome_completo r)) (usuarios d).
Proof.
  unfold update_hash_by_id. simpl. rewrite map_map. apply map_ext.
  intros r. now destruct (Z.eqb (u_id r) id).
Qed.

Lemma update_by_usuario_keeps_names (h login : string) (d : db) :
  map (fun r => (u_id r, u_usuario r, u_nome_completo r))
      (usuarios (fst (update_hash_by_usuario h login d))) =
  map (fun r => (u_id r, u_usuario r, u_nome_completo r)) (usuarios d).
Proof.
  unfold update_hash_by_usuario. simpl. rewrite map_map. apply map_ext.
  intros r. now destruct (u_usuario r =? login).
Qed.

Lemma select_after_insert (login h : string) (nome : option string) (d d' : db)
  (id : Z) :
  insert_usuario login h nome d = inr (d', id) ->
  select_by_usuario login d' = [mkUsuario id login h nome] /\
  id = next_id d /\
  usuarios d' = (usuarios d ++ [mkUsuario id login h nome])%list /\
  catalogo_pecas d' = catalogo_pecas d.
Proof.
  unfold insert_usuario. destruct (select_by_usuario login d) eqn:Hsel; [|discriminate].
  intros H. injection H as <- <-. simpl. repeat split.
  unfold select_by_usuario in *. simpl. rewrite filter_app, Hsel. simpl.
  now rewrite String.eqb_refl.
Qed.

End StoreMore.

(** ** The handlers, branch by branch *)

Module HandlerMore.
Import JS Store Server.

Section Handlers.
Context {X : Externals} (cfg : config).

(** X3. Logging in, listing the part codes, searching and streaming a
    photo never change the store, whatever the request and whatever
    fails. *)
Theorem read_routes_keep_store (e : env) (req : request) (d : db) :
  snd (login cfg e req d) = d /\
  snd (route_catalog_all cfg e req d) = d /\
  snd (route_search cfg e req d) = d /\
  snd (route_photo cfg e req d) = d.
Proof.
  repeat split.
  - unfold login.
    destruct (negb (truthy (b_usuario req)) || negb (truthy_value (b_senha req)));
      [reflexivity|].
    destruct (query_error e 0); [reflexivity|].
    destruct (select_by_usuario _ d) as [|user others]; [reflexivity|].
    destruct (compare_js _ _) as [[|]|]; try reflexivity.
    destruct (jwt_sign _ _ _); reflexivity.
  - unfold route_catalog_all, guarded, catalog_all.
    destruct (verifyToken cfg e req); [|reflexivity].
    destruct (query_error e 0); reflexivity.
  - unfold route_search, guarded, search.
    destruct (verifyToken cfg e req); [|reflexivity].
    destruct (negb (truthy (q_cod_peca req))); [reflexivity|].
    destruct (query_error e 0); [reflexivity|].
    destruct (select_caminho _ d) as [|dir others]; [reflexivity|].
    destruct (fs_readdir e dir); reflexivity.
  - unfold route_photo, guarded, photo.
    destruct (verifyToken cfg e req); [|reflexivity].
    destruct (query_error e 0); [reflexivity|].
    destruct (select_caminho _ d) as [|dir others]; [reflexivity|].
    destruct (Path.has_nul _); [reflexivity|].
    destruct (fs_stream e _); reflexivity.
Qed.

(** The three ways a registration ends: nothing reached the tables, the
    INSERT was refused, or the row was added. *)
Lemma register_cases (e : env) (req : request) (d : db) :
  snd (register e req d) = d \/
  (exists senha err d',
     b_senha req = Str senha /\
     insert_usuario (str (b_usuario req))
       (bcrypt_hash senha saltRounds (salt e)) (b_nome_completo req) d
       = inl (err, d') /\
     snd (register e req d) = d' /\
     status_of (fst (register e req d)) <> 201%Z) \/
  (exists senha d' id,
     b_senha req = Str senha /\
     insert_usuario (str (b_usuario req))
       (bcrypt_hash senha saltRounds (salt e)) (b_nome_completo req) d
       = inr (d', id) /\
     register e req d =
       (Json 201 (JObj [("message", JStr "Usuário criado com sucesso!");
                        ("userId", JNum id)]), d')).
Proof.
  unfold register.
  destruct (negb (truthy (b_usuario req)) || negb (truthy_value (b_senha req)));
    [now left|].
  destruct (b_senha req) as [|senha|t]; simpl; [now left| |now left].
  destruct (query_error e 0) as [err|]; [now left|].
  destruct (insert_usuario _ _ _ d) as [[err d']|[d' id]] eqn:Hins.
  - right. left. exists senha, err, d'. repeat split; [exact Hins|].
    destruct (strict_neq (e_code err) (Some "23505")); simpl; discriminate.
  - right. right. exists senha, d', id. auto.
Qed.

(** A refused INSERT leaves the rows of both tables and uses up an id. *)
Lemma refused_insert (login h : string) (nome : option string) (d d' : db)
  (err : js_error) :
  insert_usuario login h nome d = inl (err, d') ->
  usuarios d' = usuarios d /\ catalogo_pecas d' = catalogo_pecas d /\
  next_id d' = (next_id d + 1)%Z /\ e_code err = Some "23505" /\
  select_by_usuario login d <> [].
Proof.
  unfold insert_usuario.
  destruct (select_by_usuario login d); [discriminate|].
  intros H. injection H as <- <-. repeat split. discriminate.
Qed.

Lemma change_password_cases (e : env) (req : request) (u : claims) (d : db) :
  snd (change_password e req u d) = d \/
  exists nova,
    b_novaSenha req = Str nova /\
    change_password e req u d =
      (Json 200 (JObj [("message", JStr "Senha alterada com sucesso!")]),
       update_hash_by_id (bcrypt_hash nova saltRounds (salt e)) (c_id u) d).
Proof.
  unfold change_password.
  destruct (negb (truthy_value (b_senhaAntiga req))
            || negb (truthy_value (b_novaSenha req))); [now left|].
  destruct (query_error e 0); [now left|].
  destruct (select_by_id (c_id u) d) as [|row others]; [now left|].
  destruct (compare_js _ _) as [[|]|]; try now left.
  destruct (b_novaSenha req) as [|nova|t]; simpl; try now left.
  destruct (query_error e 1); [now left|right]. eauto.
Qed.

Lemma admin_reset_cases (e : env) (req : request) (d : db) :
  snd (admin_reset_password e req d) = d \/
  exists nova,
    b_novaSenha req = Str nova /\
    select_by_usuario (str (b_usuario req)) d <> [] /\
    admin_reset_password e req d =
      (Json 200 (JObj [("message",
         JStr ("Senha para '" ++ str (b_usuario req) ++ "' resetada com sucesso."))]),
       fst (update_hash_by_usuario (bcrypt_hash nova saltRounds (salt e))
              (str (b_usuario req)) d)).
Proof.
  unfold admin_reset_password.
  destruct (negb (truthy (b_usuario req)) || negb (truthy_value (b_novaSenha req)));
    [now left|].
  destruct (b_novaSenha req) as [|nova|t]; [now left| |now left].
  cbv beta iota delta [hash_js].
  destruct (query_error e 0); [now left|].
  destruct (select_by_usuario (str (b_usuario req)) d) as [|r rs] eqn:Hsel.
  - left. now rewrite (StoreFacts.update_unknown_usuario _ _ _ Hsel).
  - right. exists nova. split; [reflexivity|]. split; [discriminate|].
    unfold update_hash_by_usuario. rewrite Hsel. reflexivity.
Qed.

(** X4. A registration that is not answered 201 leaves the rows of both
    tables as they were (a refused INSERT still uses up an id of the
    sequence); a password change that is not answered 200 and an admin
    reset that is not answered 200 leave the store exactly as it was. *)
Theorem failed_writes_keep_store (e : env) (req : request) (d : db) :
  (status_of (fst (register e req d)) <> 201%Z ->
   usuarios (snd (register e req d)) = usuarios d /\
   catalogo_pecas (snd (register e req d)) = catalogo_pecas d /\
   (next_id d <= next_id (snd (register e req d)) <= next_id d + 1)%Z) /\
  (status_of (fst (route_change_password cfg e req d)) <> 200%Z ->
   snd (route_change_password cfg e req d) = d) /\
  (status_of (fst (route_admin_reset_password cfg e req d)) <> 200%Z ->
   snd (route_admin_reset_password cfg e req d) = d).
Proof.
  repeat split.
  - destruct (register_cases e req d)
      as [Hd|[[senha [err [d' [_ [Hins [Hd _]]]]]]|[senha [d' [id [_ [_ Hr]]]]]]].
    + now rewrite Hd.
    + rewrite Hd. now destruct (refused_insert _ _ _ _ _ _ Hins) as [Hu _].
    + rewrite Hr in H. simpl in H. congruence.
  - destruct (register_cases e req d)
      as [Hd|[[senha [err [d' [_ [Hins [Hd _]]]]]]|[senha [d' [id [_ [_ Hr]]]]]]].
    + now rewrite Hd.
    + rewrite Hd. now destruct (refused_insert _ _ _ _ _ _ Hins) as [_ [Hc _]].
    + rewrite Hr in H. simpl in H. congruence.
  - destruct (register_cases e req d)
      as [Hd|[[senha [err [d' [_ [Hins [Hd _]]]]]]|[senha [d' [id [_ [_ Hr]]]]]]].
    + rewrite Hd. lia.
    + rewrite Hd. destruct (refused_insert _ _ _ _ _ _ Hins) as [_ [_ [Hn _]]]. lia.
    + rewrite Hr in H. simpl in H. congruence.
  - destruct (register_cases e req d)
      as [Hd|[[senha [err [d' [_ [Hins [Hd _]]]]]]|[senha [d' [id [_ [_ Hr]]]]]]].
    + rewrite Hd. lia.
    + rewrite Hd. destruct (refused_insert _ _ _ _ _ _ Hins) as [_ [_ [Hn _]]]. lia.
    + rewrite Hr in H. simpl in H. congruence.
  - unfold route_change_password, guarded.
    destruct (verifyToken cfg e req) as [[u|]|r]; try reflexivity.
    destruct (change_password_cases e req u d) as [H|[nova [_ H]]]; [now intros _|].
    rewrite H. simpl. congruence.
  - unfold route_admin_reset_password, guarded.
    destruct (verifyAdminKey cfg req); [|reflexivity].
    destruct (admin_reset_cases e req d) as [H|[nova [_ [_ H]]]]; [now intros _|].
    rewrite H. simpl. congruence.
Qed.

(** X5. No route touches [catalogo_pecas], and no route drops, renumbers
    or renames a row of [usuarios]: a password change and an admin reset
    keep the rows' ids, logins and names in place, and a registration
    keeps the rows there were and adds at most one. *)
Theorem writes_keep_catalog_and_names (e : env) (req : request) (d : db) :
  let names (x : db) :=
    map (fun r => (u_id r, u_usuario r, u_nome_completo r)) (usuarios x) in
  (catalogo_pecas (snd (register e req d)) = catalogo_pecas d /\
   exists added,
     usuarios (snd (register e req d)) = (usuarios d ++ added)%list /\
     List.length added <= 1) /\
  (catalogo_pecas (snd (route_change_password cfg e req d)) = catalogo_pecas d /\
   names (snd (route_change_password cfg e req d)) = names d) /\
  (catalogo_pecas (snd (route_admin_reset_password cfg e req d)) = catalogo_pecas d /\
   names (snd (route_admin_reset_password cfg e req d)) = names d).
Proof.
  intros names. repeat split.
  - destruct (register_cases e req d)
      as [Hd|[[senha [err [d' [_ [Hins [Hd _]]]]]]|[senha [d' [id [_ [Hins Hr]]]]]]].
    + now rewrite Hd.
    + rewrite Hd. now destruct (refused_insert _ _ _ _ _ _ Hins) as [_ [Hc _]].
    + rewrite Hr. simpl.
      destruct (StoreMore.select_after_insert _ _ _ _ _ _ Hins) as [_ [_ [_ Hc]]].
      exact Hc.
  - destruct (register_cases e req d)
      as [Hd|[[senha [err [d' [_ [Hins [Hd _]]]]]]|[senha [d' [id [_ [Hins Hr]]]]]]].
    + rewrite Hd. exists []. rewrite app_nil_r. split; [reflexivity|simpl; lia].
    + rewrite Hd. destruct (refused_insert _ _ _ _ _ _ Hins) as [Hu _].
      rewrite Hu. exists []. rewrite app_nil_r. split; [reflexivity|simpl; lia].
    + rewrite Hr.
      destruct (StoreMore.select_after_insert _ _ _ _ _ _ Hins) as [_ [_ [Hu _]]].
      simpl. rewrite Hu. eexists. split; [reflexivity|]. simpl. lia.
  - unfold route_change_password, guarded.
    destruct (verifyToken cfg e req) as [[u|]|r]; try reflexivity.
    destruct (change_password_cases e req u d) as [H|[nova [_ H]]]; rewrite H;
      reflexivity.
  - unfold route_change_password, guarded.
    destruct (verifyToken cfg e req) as [[u|]|r]; try reflexivity.
    destruct (change_password_cases e req u d) as [H|[nova [_ H]]]; rewrite H;
      [reflexivity|]. apply StoreMore.update_by_id_keeps_names.
  - unfold route_admin_reset_password, guarded.
    destruct (verifyAdminKey cfg req); [|reflexivity].
    destruct (admin_reset_cases e req d) as [H|[nova [_ [_ H]]]]; rewrite H;
      reflexivity.
  - unfold route_admin_reset_password, guarded.
    destruct (verifyAdminKey cfg req); [|reflexivity].
    destruct (admin_reset_cases e req d) as [H|[nova [_ [_ H]]]]; rewrite H;
      [reflexivity|]. apply StoreMore.update_by_usuario_keeps_names.
Qed.

Lemma strict_neq_false (a b : option string) :
  strict_neq a b = false <-> a = b.
Proof.
  destruct a as [x|], b as [y|]; simpl; split; try congruence.
  - intros H. apply negb_false_iff, String.eqb_eq in H. now subst.
  - intros H. injection H as ->. now rewrite String.eqb_refl.
Qed.

(** X6. A registration without a login or without a password is answered
    400, and one whose password is not a string is answered 500, both
    before the store is asked and with the store as it was; a
    registration with a login that a row already has is answered 409,
    with the rows of both tables as they were and one id of the sequence
    used up; and when the query fails before it reaches the tables, with
    a code other than 23505, the answer is 500 and the store is as it
    was. *)
Theorem register_errors (e : env) (req : request) (d : db) :
  (truthy (b_usuario req) = false \/ truthy_value (b_senha req) = false ->
   register e req d =
     (Json 400 (error_body "Usuário e senha são obrigatórios."), d)) /\
  (truthy (b_usuario req) = true -> b_senha req = Other true ->
   register e req d =
     (Json 500 (error_body "Erro interno ao criar usuário."), d)) /\
  (forall senha,
     truthy (b_usuario req) = true -> b_senha req = Str senha -> senha <> "" ->
     (query_error e 0 = None ->
      select_by_usuario (str (b_usuario req)) d <> [] ->
      fst (register e req d) = Json 409 (error_body "Nome de usuário já existe.") /\
      usuarios (snd (register e req d)) = usuarios d /\
      catalogo_pecas (snd (register e req d)) = catalogo_pecas d /\
      next_id (snd (register e req d)) = (next_id d + 1)%Z) /\
     (forall err,
        query_error e 0 = Some err -> e_code err <> Some "23505" ->
        register e req d =
          (Json 500 (error_body "Erro interno ao criar usuário."), d))).
Proof.
  unfold register. split; [|split].
  - intros [H|H]; rewrite H; simpl; [reflexivity|].
    now rewrite orb_true_r.
  - intros Hu Hs. rewrite Hu, Hs. reflexivity.
  - intros senha Hu Hs Hne. apply String.eqb_neq in Hne.
    rewrite Hu, Hs. simpl. rewrite Hne. simpl. split.
    + intros Hq Hdup. rewrite Hq. unfold insert_usuario.
      destruct (select_by_usuario (str (b_usuario req)) d); [contradiction|].
      simpl. repeat split.
    + intros err Hq Hc. rewrite Hq.
      destruct (strict_neq (e_code err) (Some "23505")) eqn:Hn; [reflexivity|].
      now apply strict_neq_false in Hn.
Qed.


(** X8. A login is answered 200 exactly when the login is non-empty, the
    password is a non-empty string, the query is answered, the first row
    with that login exists, bcrypt verifies the password against its hash
    and the token can be signed; every other login is answered 400, 401
    or 500. *)
Theorem login_succeeds_iff (e : env) (req : request) (d : db) :
  (status_of (fst (login cfg e req d)) = 200%Z <->
   truthy (b_usuario req) = true /\
   truthy_value (b_senha req) = true /\
   query_error e 0 = None /\
   exists senha user others token,
     b_senha req = Str senha /\
     select_by_usuario (str (b_usuario req)) d = user :: others /\
     bcrypt_compare senha (u_senha_hash user) = true /\
     jwt_sign (mkClaims (u_id user) (u_usuario user)) (JWT_SECRET cfg) (now e)
       = Some token) /\
  In (status_of (fst (login cfg e req d))) [200; 400; 401; 500]%Z.
Proof.
  unfold login.
  destruct (truthy (b_usuario req)) eqn:Hu; simpl;
    [|split; [split; [discriminate|intros [H _]; discriminate]|auto]].
  destruct (truthy_value (b_senha req)) eqn:Hs; simpl;
    [|split; [split; [discriminate|intros [_ [H _]]; discriminate]|auto]].
  destruct (query_error e 0) as [err|] eqn:Hq; simpl;
    [split; [split; [discriminate|intros [_ [_ [H _]]]; discriminate]|auto]|].
  destruct (select_by_usuario (str (b_usuario req)) d) as [|user others] eqn:Hsel;
    simpl.
  { split; [split; [discriminate|]|auto].
    intros [_ [_ [_ [s [u [o [t [_ [H _]]]]]]]]]. discriminate. }
  destruct (b_senha req) as [|senha|t] eqn:Hb; simpl.
  - discriminate Hs.
  - destruct (bcrypt_compare senha (u_senha_hash user)) eqn:Hc; simpl.
    + destruct (jwt_sign _ _ _) as [token|] eqn:Hj; simpl.
      * split; [split; [intros _|reflexivity]|auto].
        repeat split. exists senha, user, others, token. auto.
      * split; [split; [discriminate|]|auto 6].
        intros [_ [_ [_ [s [u [o [t [_ [H [_ Hj']]]]]]]]]].
        injection H as <- <-. congruence.
    + split; [split; [discriminate|]|auto].
      intros [_ [_ [_ [s [u [o [t [Hs' [H [Hc' _]]]]]]]]]].
      injection H as <- <-. injection Hs' as <-. congruence.
  - split; [split; [discriminate|]|auto 6].
    intros [_ [_ [_ [s [u [o [t' [Hs' _]]]]]]]]. discriminate Hs'.
Qed.

(** X9. A password change by an authenticated caller with both fields
    non-empty: when no row has the caller's id the answer is 404 and the
    store is as it was; when the passwords are strings, bcrypt verifies
    the old one against the first such row and the UPDATE is answered,
    the answer is 200, the rows with the caller's id hold the hash of the
    new password and the rows with any other id are as they were; when
    the UPDATE fails the answer is 500 and the store is as it was. *)
Theorem change_password_effect (e : env) (req : request) (d : db) (u : claims) :
  verifyToken cfg e req = Next (Some u) ->
  truthy_value (b_senhaAntiga req) = true ->
  truthy_value (b_novaSenha req) = true ->
  query_error e 0 = None ->
  let out := route_change_password cfg e req d in
  (select_by_id (c_id u) d = [] ->
   out = (Json 404 (error_body "Usuário não encontrado."), d)) /\
  (forall row others antiga nova,
     select_by_id (c_id u) d = row :: others ->
     b_senhaAntiga req = Str antiga ->
     b_novaSenha req = Str nova ->
     bcrypt_compare antiga (u_senha_hash row) = true ->
     let novaSenhaHash := bcrypt_hash nova saltRounds (salt e) in
     (query_error e 1 = None ->
      fst out = Json 200 (JObj [("message", JStr "Senha alterada com sucesso!")]) /\
      select_by_id (c_id u) (snd out) = map (set_hash novaSenhaHash) (row :: others) /\
      (forall id', id' <> c_id u ->
                   select_by_id id' (snd out) = select_by_id id' d)) /\
     (query_error e 1 <> None ->
      out = (Json 500 (error_body "Erro interno ao alterar a senha."), d))).
Proof.
  intros Hu Ha Hn Hq out.
  assert (Hout : out = change_password e req u d).
  { unfold out, route_change_password. now rewrite Hu. }
  rewrite Hout. unfold change_password. rewrite Ha, Hn, Hq. simpl. split.
  - intros Hsel. now rewrite Hsel.
  - intros row others antiga nova Hsel Hsa Hsn Hcmp.
    rewrite Hsel, Hsa, Hsn. simpl. rewrite Hcmp. split.
    + intros Hq1. rewrite Hq1. simpl. split; [reflexivity|]. split.
      * now rewrite StoreMore.select_by_id_updated, Hsel.
      * intros id' Hne. now apply StoreMore.select_by_id_other.
    + intros Hq1. destruct (query_error e 1); [reflexivity|contradiction].
Qed.

(** X10. An admin reset leaves the rows of every login other than its
    target as they were, whatever its outcome. *)
Theorem admin_reset_only_target (e : env) (req : request) (d : db)
  (other : string) :
  other <> str (b_usuario req) ->
  select_by_usuario other (snd (route_admin_reset_password cfg e req d)) =
  select_by_usuario other d.
Proof.
  intros Hne. unfold route_admin_reset_password, guarded.
  destruct (verifyAdminKey cfg req); [|reflexivity].
  destruct (admin_reset_cases e req d) as [H|[nova [_ [_ H]]]]; rewrite H;
    [reflexivity|].
  now apply StoreMore.select_by_usuario_other.
Qed.

(** X11. The four outcomes of a search: 400 exactly when [cod_peca] is
    missing or empty (the store is not asked); 404 exactly when the query
    is answered with no row; 500 exactly when the query fails or the
    directory of the first row cannot be listed; 200 exactly when that
    directory is listed. *)
Theorem search_status (e : env) (req : request) (d : db) :
  let s := status_of (fst (search e req d)) in
  let cod := str (q_cod_peca req) in
  (s = 400%Z <-> truthy (q_cod_peca req) = false) /\
  (s = 404%Z <->
   truthy (q_cod_peca req) = true /\ query_error e 0 = None /\
   select_caminho cod d = []) /\
  (s = 500%Z <->
   truthy (q_cod_peca req) = true /\
   (query_error e 0 <> None \/
    exists dir others err,
      query_error e 0 = None /\ select_caminho cod d = dir :: others /\
      fs_readdir e dir = inl err)) /\
  (s = 200%Z <->
   truthy (q_cod_peca req) = true /\ query_error e 0 = None /\
   exists dir others files,
     select_caminho cod d = dir :: others /\ fs_readdir e dir = inr files).
Proof.
  intros s cod. unfold s, search. fold cod.
  destruct (truthy (q_cod_peca req)) eqn:Hc; simpl.
  2:{ repeat split; try discriminate; try tauto;
        intros H; decompose [and] H; discriminate. }
  destruct (query_error e 0) as [qerr|] eqn:Hq; simpl.
  { repeat split; try discriminate; auto;
      try (intros H; decompose [and] H; discriminate).
    left. discriminate. }
  destruct (select_caminho cod d) as [|dir others] eqn:Hsel; simpl.
  { repeat split; try discriminate; auto.
    - intros [_ [H|[dir [others [err [_ [H _]]]]]]]; [congruence|discriminate].
    - intros [_ [_ [dir [others [files [H _]]]]]]. discriminate. }
  destruct (fs_readdir e dir) as [err|files] eqn:Hls; simpl.
  - repeat split; try discriminate; auto.
    + intros [_ [_ H]]. discriminate.
    + right. exists dir, others, err. auto.
    + intros [_ [_ [dir' [others' [files [H Hr]]]]]].
      injection H as <- <-. congruence.
  - repeat split; try discriminate; auto.
    + intros [_ [_ H]]. discriminate.
    + intros [_ [H|[dir' [others' [err [_ [H Hr]]]]]]]; [congruence|].
      injection H as <- <-. congruence.
    + exists dir, others, files. auto.
Qed.


(** X13. Every entry of a search answer can be asked back: the photo
    route, given the part code and the filename of the entry, opens the
    file of that name in the directory that the search listed and serves
    it under a media type that starts with [image/]. *)
Theorem listed_photo_is_served (e e' : env) (req req' : request) (d : db)
  (cod file : string) (fotos : list json) :
  fst (search e req d) =
    Json 200 (JObj [("cod_peca", JStr cod); ("fotos", JArr fotos)]) ->
  In (foto cod file) fotos ->
  p_codPeca req' = cod ->
  p_filename req' = file ->
  query_error e' 0 = None ->
  exists dir others files mimeType,
    select_caminho cod d = dir :: others /\
    fs_readdir e dir = inr files /\
    In file files /\
    String.prefix "image/" mimeType = true /\
    forall bytes,
      fs_read e' (Path.join dir file) = inr bytes ->
      fst (photo e' req' d) = FileStream mimeType (Path.join dir file) bytes.
Proof.
  unfold search. intros Hs Hin Hcod Hfile Hq'.
  destruct (negb (truthy (q_cod_peca req))); [discriminate Hs|].
  destruct (query_error e 0); [discriminate Hs|].
  destruct (select_caminho (str (q_cod_peca req)) d) as [|dir others] eqn:Hsel;
    [discriminate Hs|].
  destruct (fs_readdir e dir) as [err|files] eqn:Hls; [discriminate Hs|].
  simpl in Hs. injection Hs as Hc Hf. subst fotos. rewrite Hc in *.
  unfold imageFiles in Hin. apply in_map_iff in Hin as [file' [Heq Hin]].
  unfold foto in Heq. injection Heq as Heq _. subst file'.
  apply filter_In in Hin as [Hin Himg]. unfold is_image in Himg.
  destruct (mime_lookup file) as [mimeType|] eqn:Hm; [|discriminate Himg].
  exists dir, others, files, mimeType. repeat split; auto.
  intros bytes Hr. unfold fs_read in Hr.
  destruct (Path.has_nul (Path.join dir file)) eqn:Hnul; [discriminate Hr|].
  unfold photo. now rewrite Hq', Hcod, Hfile, Hsel, Hnul, Hr, Hm.
Qed.

End Handlers.

End HandlerMore.

(** ** The indexer, entry by entry *)

Module IndexerMore.
Import Store Indexer.

Lemma resolve_child (root item : string) :
  Path.isAbsolute root = true ->
  Path.is_name item = true ->
  Path.fs_resolve (Path.join root item) = (Path.fs_resolve root ++ [item])%list.
Proof.
  intros Habs Hname. unfold Path.join.
  destruct (root =? "") eqn:Hr.
  { apply String.eqb_eq in Hr. subst. discriminate. }
  destruct (item =? "") eqn:Hi.
  { apply String.eqb_eq in Hi. subst. discriminate. }
  rewrite (PathFacts.resolve_normalize _ (PathFacts.glue_absolute _ _ Habs)).
  rewrite PathFacts.segments_glue.
  assert (Hseg : Path.segments item = [item]).
  { apply PathFacts.segments_of_slash_free. unfold Path.is_name in Hname.
    now apply andb_true_iff in Hname as [_ Hname]. }
  rewrite Hseg. unfold Path.fs_resolve, Path.normalizeString.
  rewrite fold_left_app. simpl.
  now rewrite (PathFacts.norm_step_name _ _ _ Hname).
Qed.

Lemma length_upsert (cod p : string) (t : Z) (rs : list peca_row) :
  List.length rs <= List.length (upsert cod p t rs).
Proof.
  induction rs as [|r rs IH]; simpl; [lia|].
  destruct (cod_peca r =? cod); simpl; lia.
Qed.

Section Run.
Variables (root : string) (w : world).

(** X14. The path stored for an indexed entry is the root followed by
    the entry's name, when the root is absolute and the name is a plain
    file name: it lies in the root, directly below it, and two names
    never share a path. *)
Theorem indexed_path_is_child (st : run_state) (item : string) :
  Path.isAbsolute root = true ->
  Path.is_name item = true ->
  is_indexed root w item = true ->
  exists p,
    lookup item (rows (process_item root w st item)) = Some p /\
    Path.fs_resolve p = (Path.fs_resolve root ++ [item])%list /\
    Path.inside_dir root p = true /\
    (forall other,
       Path.is_name other = true -> Path.join root other = p -> other = item).
Proof.
  intros Habs Hname Hix. exists (Path.join root item). repeat split.
  - rewrite IndexerFacts.process_item_rows, Hix.
    apply IndexerFacts.lookup_upsert_same.
  - now apply resolve_child.
  - unfold Path.inside_dir. rewrite (resolve_child _ _ Habs Hname).
    apply PathFacts.is_prefix_app.
  - intros other Hother Heq.
    assert (H : Path.fs_resolve (Path.join root other) =
                Path.fs_resolve (Path.join root item)) by now rewrite Heq.
    rewrite !resolve_child in H by assumption.
    apply app_inv_head in H. now injection H.
Qed.

Lemma three_kinds (items : list string) :
  List.length (filter (is_indexed root w) items) +
  List.length (filter (is_error root w) items) +
  List.length (filter (is_passed_over root w) items) = List.length items.
Proof.
  induction items as [|x items IH]; simpl; [reflexivity|].
  unfold is_indexed, is_error, is_passed_over in *.
  destruct (stat w (Path.join root x)); [destruct (upsert_error w x)| |];
    simpl; lia.
Qed.

(** X15. Every entry of the listing is counted at most once: the folders
    indexed, the entries that failed and the entries that are not
    directories add up to the listing; and a run that cannot connect or
    cannot list the root counts nothing and leaves the table as it was. *)
Theorem counts_partition (rows0 : list peca_row) :
  let result := startIndexing root w rows0 in
  (forall items,
     connect_ok w = true -> readdir_root w = inr items ->
     indexedCount result + errorCount result +
       List.length (filter (is_passed_over root w) items) = List.length items) /\
  (connect_ok w = false \/ (exists err, readdir_root w = inl err) ->
   result = mkRun rows0 0 0).
Proof.
  intros result. unfold result, startIndexing. split.
  - intros items Hc Hls. rewrite Hc, Hls. simpl.
    destruct (IndexerFacts.process_items_counts root w items (mkRun rows0 0 0))
      as [-> ->].
    simpl. apply three_kinds.
  - intros [Hc|[err Hls]].
    + now rewrite Hc.
    + rewrite Hls. now destruct (connect_ok w).
Qed.

Lemma step_keeps_unlisted (c : string) (st : run_state) (item : string) :
  (item = c -> is_indexed root w c = false) ->
  lookup c (rows (process_item root w st item)) = lookup c (rows st) /\
  lookup_time c (rows (process_item root w st item)) = lookup_time c (rows st).
Proof.
  intros H. rewrite IndexerFacts.process_item_rows.
  destruct (is_indexed root w item) eqn:Hix; [|now split].
  assert (Hne : item <> c) by (intros ->; rewrite (H eq_refl) in Hix; discriminate).
  split.
  - now apply IndexerFacts.lookup_upsert_other.
  - now apply IndexerFacts.lookup_time_upsert_other.
Qed.

Lemma run_keeps_unlisted (c : string) (items : list string) (st : run_state) :
  (In c items -> is_indexed root w c = false) ->
  lookup c (rows (process_items root w items st)) = lookup c (rows st) /\
  lookup_time c (rows (process_items root w items st)) = lookup_time c (rows st).
Proof.
  revert st. induction items as [|x items IH]; intros st H; simpl; [now split|].
  destruct (IH (process_item root w st x)) as [-> ->].
  - intros Hin. apply H. now right.
  - apply step_keeps_unlisted. intros ->. apply H. now left.
Qed.

Lemma run_length (items : list string) (st : run_state) :
  List.length (rows st) <= List.length (rows (process_items root w items st)).
Proof.
  revert st. induction items as [|x items IH]; intros st; simpl; [lia|].
  etransitivity; [|apply IH]. rewrite IndexerFacts.process_item_rows.
  destruct (is_indexed root w x); [apply length_upsert|lia].
Qed.

(** X16. A run never removes a row and never touches the row of a part
    code it did not upsert: a code that is not a listed directory whose
    upsert succeeded keeps its path and its timestamp, so the entry of a
    folder that has gone from the root stays in the table. *)
Theorem run_keeps_other_rows (rows0 : list peca_row) :
  let result := startIndexing root w rows0 in
  (forall c,
     (forall items, connect_ok w = true -> readdir_root w = inr items ->
                    In c items -> is_indexed root w c = false) ->
     lookup c (rows result) = lookup c rows0 /\
     lookup_time c (rows result) = lookup_time c rows0) /\
  (forall c, In c (codes rows0) -> In c (codes (rows result))) /\
  List.length rows0 <= List.length (rows result).
Proof.
  intros result. unfold result, startIndexing.
  destruct (connect_ok w); simpl; [|repeat split; auto].
  destruct (readdir_root w) as [err|items]; [repeat split; auto|].
  repeat split.
  - apply (run_keeps_unlisted c items (mkRun rows0 0 0)). now apply H.
  - apply (run_keeps_unlisted c items (mkRun rows0 0 0)). now apply H.
  - intros c Hin. apply IndexerFacts.in_codes_after_run. now left.
  - apply (run_length items (mkRun rows0 0 0)).
Qed.

(** X18. A listed directory whose own upsert succeeds ends the run in
    the table, with its joined path and the timestamp of its upsert,
    whatever happens to the other entries of the listing. *)
Theorem listed_directory_is_indexed (rows0 : list peca_row)
  (items : list string) (item : string) :
  connect_ok w = true ->
  readdir_root w = inr items ->
  In item items ->
  stat w (Path.join root item) = IsDirectory ->
  upsert_error w item = None ->
  let result := startIndexing root w rows0 in
  lookup item (rows result) = Some (Path.join root item) /\
  lookup_time item (rows result) = Some (clock w item) /\
  In item (codes (rows result)).
Proof.
  intros Hc Hls Hin Hst Hup result.
  assert (Hix : is_indexed root w item = true)
    by (unfold is_indexed; now rewrite Hst, Hup).
  unfold result, startIndexing. rewrite Hc, Hls. simpl. repeat split.
  - now apply IndexerFacts.indexed_after_run.
  - now apply IndexerFacts.stamped_after_run.
  - apply IndexerFacts.in_codes_after_run. auto.
Qed.

End Run.

(** X17. The outcome of a run does not depend on the order in which the
    entries are handled, nor on when each upsert runs: two runs over the
    same listing in two orders, with the same answers of [stat] and the
    same upsert outcomes but each with its own clock, end with the same
    path for every part code, the same part codes and the same two
    counts. *)
Theorem order_independent (root : string) (w w' : world)
  (items items' : list string) (st : run_state) :
  Permutation items items' ->
  (forall p, stat w' p = stat w p) ->
  (forall c, upsert_error w' c = upsert_error w c) ->
  let result := process_items root w items st in
  let result' := process_items root w' items' st in
  (forall c,
     lookup c (rows result) = lookup c (rows result') /\
     (In c (codes (rows result)) <-> In c (codes (rows result')))) /\
  indexedCount result = indexedCount result' /\
  errorCount result = errorCount result'.
Proof.
  intros Hperm Hs Hu result result'. unfold result, result'.
  assert (Hix : forall c, is_indexed root w' c = is_indexed root w c)
    by (intros c; now apply IndexerFacts.is_indexed_ext).
  assert (Hier : forall c, is_error root w' c = is_error root w c)
    by (intros c; now apply IndexerFacts.is_error_ext).
  split; [|split].
  - intros c.
    assert (Hin : In c items <-> In c items').
    { split; apply Permutation_in; [exact Hperm|now symmetry]. }
    split.
    + destruct (in_dec string_dec c items) as [Hc|Hc];
        [destruct (is_indexed root w c) eqn:Hi|].
      * rewrite !IndexerFacts.indexed_after_run; try tauto. now rewrite Hix.
      * destruct (run_keeps_unlisted root w c items st) as [-> _]; [auto|].
        destruct (run_keeps_unlisted root w' c items' st) as [-> _];
          [intros _; now rewrite Hix|reflexivity].
      * destruct (run_keeps_unlisted root w c items st) as [-> _]; [tauto|].
        destruct (run_keeps_unlisted root w' c items' st) as [-> _];
          [tauto|reflexivity].
    + rewrite !IndexerFacts.in_codes_after_run, Hix. tauto.
  - destruct (IndexerFacts.process_items_counts root w items st) as [-> _].
    destruct (IndexerFacts.process_items_counts root w' items' st) as [-> _].
    f_equal. rewrite (filter_ext _ _ (Hix) items').
    apply Permutation_length. now apply IndexerFacts.Permutation_filter.
  - destruct (IndexerFacts.process_items_counts root w items st) as [_ ->].
    destruct (IndexerFacts.process_items_counts root w' items' st) as [_ ->].
    f_equal. rewrite (filter_ext _ _ (Hier) items').
    apply Permutation_length. now apply IndexerFacts.Permutation_filter.
Qed.

End IndexerMore.

(** ** From the indexer to the service *)

Module EndToEnd.
Import JS Store Server Indexer.

(** The first row that the SELECT of the service returns is the row that
    [lookup] finds. *)
Lemma select_caminho_lookup (cod : string) (d : db) :
  lookup cod (catalogo_pecas d) =
  match select_caminho cod d with
  | caminho_nas :: _ => Some caminho_nas
  | [] => None
  end.
Proof.
  unfold select_caminho.
  induction (catalogo_pecas d) as [|r rs IH]; simpl; [reflexivity|].
  destruct (cod_peca r =? cod); [reflexivity|exact IH].
Qed.

(** X19. What the indexer writes is what the service reads: after a run,
    a search for a listed directory whose upsert succeeded is not answered
    404; it lists the directory at the root joined with the folder name
    and answers 200 with the images found there. *)
Theorem indexed_folder_is_searchable {X : Externals} (root : string) (w : world)
  (rows0 : list peca_row) (items : list string) (item : string)
  (d : db) (e : env) (req : request) (files : list string) :
  connect_ok w = true ->
  readdir_root w = inr items ->
  In item items ->
  stat w (Path.join root item) = IsDirectory ->
  upsert_error w item = None ->
  catalogo_pecas d = rows (startIndexing root w rows0) ->
  item <> "" ->
  q_cod_peca req = Some item ->
  query_error e 0 = None ->
  fs_readdir e (Path.join root item) = inr files ->
  fst (search e req d) =
    Json 200 (JObj [("cod_peca", JStr item);
                    ("fotos", JArr (map (foto item) (filter is_image files)))]).
Proof.
  intros Hc Hls Hin Hst Hup Hd Hne Hq Hqe Hfs.
  assert (Hix : is_indexed root w item = true)
    by (unfold is_indexed; now rewrite Hst, Hup).
  assert (Hrow : lookup item (catalogo_pecas d) = Some (Path.join root item)).
  { rewrite Hd. unfold startIndexing. rewrite Hc, Hls. simpl.
    now apply IndexerFacts.indexed_after_run. }
  rewrite select_caminho_lookup in Hrow.
  unfold search. rewrite Hq. simpl truthy.
  apply String.eqb_neq in Hne. rewrite Hne. simpl negb. cbv iota.
  rewrite Hqe. simpl str.
  destruct (select_caminho item d) as [|dir others]; [discriminate Hrow|].
  injection Hrow as ->. now rewrite Hfs.
Qed.

End EndToEnd.

(** ** The further properties at concrete requests *)

Module MoreExamples.
Import JS Store Server Indexer Fixture.

(** The same token in the header with and without the prefix (the second
    request also carries a stray query token), and in the query. *)
Lemma token_transports_witness :
  verifyToken (X := externals) cfg world0
    (header_request (Some "Bearer alice.s3cret") Undefined) = Next (Some alice) /\
  verifyToken (X := externals) cfg world0
    (header_request (Some "alice.s3cret") (Str "mallory.s3cret"))
    = Next (Some alice) /\
  verifyToken (X := externals) cfg world0
    (header_request None (Str "alice.s3cret")) = Next (Some alice).
Proof.
  apply (AuthMore.token_transports (X := externals) cfg world0
           (header_request (Some "Bearer alice.s3cret") Undefined)
           (header_request (Some "alice.s3cret") (Str "mallory.s3cret"))
           (header_request None (Str "alice.s3cret"))
           "alice.s3cret");
    [discriminate|reflexivity..].
Defined.

(** The configured key, a wrong key and no key. *)
Lemma verifyAdminKey_accepts_iff_witness :
  verifyAdminKey cfg (admin_request (Some "adm1n")) = Next None /\
  verifyAdminKey cfg (admin_request (Some "admin")) <> Next None /\
  verifyAdminKey cfg (admin_request None) <> Next None.
Proof.
  split; [|split].
  - apply (proj1 (AuthMore.verifyAdminKey_accepts_iff cfg
                    (admin_request (Some "adm1n")))).
    exists "adm1n". repeat split. discriminate.
  - intros H.
    apply (proj1 (AuthMore.verifyAdminKey_accepts_iff cfg
                    (admin_request (Some "admin")))) in H.
    destruct H as [k [_ [Hh Ha]]]. simpl in Hh, Ha. congruence.
  - intros H.
    apply (proj1 (AuthMore.verifyAdminKey_accepts_iff cfg (admin_request None))) in H.
    destruct H as [k [_ [Hh _]]]. discriminate Hh.
Defined.

(** A registration of a login that is taken, a password change with a
    wrong old password and a reset under a wrong key. *)
Lemma failed_writes_keep_store_witness :
  let after := snd (register (X := externals) world0
                      (register_request "alice" "hatter" None) db0) in
  (usuarios after = usuarios db0 /\ catalogo_pecas after = catalogo_pecas db0 /\
   (next_id db0 <= next_id after <= next_id db0 + 1)%Z) /\
  snd (route_change_password (X := externals) cfg world0
         (with_bearer (change_request "wander" (Some "rabbit"))) db0) = db0 /\
  snd (route_admin_reset_password (X := externals) cfg world0
         (reset_request "admin" "alice" "rabbit") db0) = db0.
Proof.
  split; [|split].
  - apply (proj1 (HandlerMore.failed_writes_keep_store (X := externals) cfg world0
                    (register_request "alice" "hatter" None) db0)).
    vm_compute. discriminate.
  - apply (proj1 (proj2 (HandlerMore.failed_writes_keep_store (X := externals) cfg
                           world0
                           (with_bearer (change_request "wander" (Some "rabbit")))
                           db0))).
    vm_compute. discriminate.
  - apply (proj2 (proj2 (HandlerMore.failed_writes_keep_store (X := externals) cfg
                           world0 (reset_request "admin" "alice" "rabbit") db0))).
    vm_compute. discriminate.
Defined.

Example refused_insert_uses_an_id :
  next_id (snd (register (X := externals) world0
                  (register_request "alice" "hatter" None) db0)) = 4%Z.
Proof. reflexivity. Qed.

(** A registration without a password, one with a number for a password,
    one of a login that is taken and one while the store is down. *)
Lemma register_errors_witness :
  status_of (fst (register (X := externals) world0
                    (register_request "carol" "" None) db0)) = 400%Z /\
  status_of (fst (register (X := externals) world0
                    (login_request_number "carol") db0)) = 500%Z /\
  (fst (register (X := externals) world0
          (register_request "alice" "hatter" None) db0)
   = Json 409 (error_body "Nome de usuário já existe.") /\
   next_id (snd (register (X := externals) world0
                   (register_request "alice" "hatter" None) db0)) = 4%Z) /\
  status_of (fst (register (X := externals) (world_down eacces)
                    (register_request "carol" "hatter" None) db0)) = 500%Z.
Proof.
  assert (Hne : "hatter" <> "") by discriminate.
  split; [|split; [|split]].
  - rewrite (proj1 (HandlerMore.register_errors (X := externals) world0
                      (register_request "carol" "" None) db0)
               (or_intror eq_refl)).
    reflexivity.
  - rewrite (proj1 (proj2 (HandlerMore.register_errors (X := externals) world0
                             (login_request_number "carol") db0))
               eq_refl eq_refl).
    reflexivity.
  - destruct (proj2 (proj2 (HandlerMore.register_errors (X := externals) world0
                              (register_request "alice" "hatter" None) db0))
                "hatter" eq_refl eq_refl Hne) as [Htaken _].
    assert (Hrow : select_by_usuario "alice" db0 <> []) by discriminate.
    destruct (Htaken eq_refl Hrow) as [Hresp [_ [_ Hid]]].
    split; [exact Hresp|exact Hid].
  - destruct (proj2 (proj2 (HandlerMore.register_errors (X := externals)
                              (world_down eacces)
                              (register_request "carol" "hatter" None) db0))
                "hatter" eq_refl eq_refl Hne) as [_ Hdown].
    rewrite (Hdown eacces eq_refl); [reflexivity|discriminate].
Defined.


(** alice changes her password. *)
Lemma change_password_effect_witness :
  let out := route_change_password (X := externals) cfg world0
               (with_bearer (change_request "wonder" (Some "rabbit"))) db0 in
  fst out = Json 200 (JObj [("message", JStr "Senha alterada com sucesso!")]) /\
  map u_senha_hash (select_by_id 1 (snd out)) = [plain_hash "rabbit" 10 "salt"] /\
  select_by_id 2 (snd out) = select_by_id 2 db0.
Proof.
  destruct (HandlerMore.change_password_effect (X := externals) cfg world0
              (with_bearer (change_request "wonder" (Some "rabbit"))) db0 alice
              eq_refl eq_refl eq_refl eq_refl) as [_ Hknown].
  destruct (Hknown (mkUsuario 1 "alice" (plain_hash "wonder" 10 "s")
                      (Some "Alice A.")) [] "wonder" "rabbit"
              eq_refl eq_refl eq_refl eq_refl) as [Hok _].
  destruct (Hok eq_refl) as [Hresp [Hrows Hothers]].
  split; [exact Hresp|]. split.
  - exact (f_equal (map u_senha_hash) Hrows).
  - apply Hothers. discriminate.
Defined.

(** A reset of alice's password leaves bob's row alone. *)
Lemma admin_reset_only_target_witness :
  select_by_usuario "bob"
    (snd (route_admin_reset_password (X := externals) cfg world0
            (reset_request "adm1n" "alice" "rabbit") db0)) =
  [mkUsuario 2 "bob" (plain_hash "builder" 10 "s") None].
Proof.
  rewrite (HandlerMore.admin_reset_only_target (X := externals) cfg world0
             (reset_request "adm1n" "alice" "rabbit") db0 "bob").
  - reflexivity.
  - discriminate.
Defined.


(** The first entry of the search for PN-100, asked back. *)
Lemma listed_photo_is_served_witness :
  exists dir mimeType,
    String.prefix "image/" mimeType = true /\
    fst (photo (X := externals) world0 (photo_request "PN-100" "a.jpg") db0) =
      FileStream mimeType (Path.join dir "a.jpg") "JPEG-A".
Proof.
  destruct (HandlerMore.listed_photo_is_served (X := externals) world0 world0
              (search_request "PN-100") (photo_request "PN-100" "a.jpg") db0
              "PN-100" "a.jpg"
              [foto "PN-100" "a.jpg"; foto "PN-100" "b.png"]
              eq_refl (or_introl eq_refl) eq_refl eq_refl eq_refl)
    as [dir [others [files [mimeType [Hsel [_ [_ [Himg Hserved]]]]]]]].
  exists dir, mimeType. split; [exact Himg|].
  apply Hserved. injection Hsel as <- _. reflexivity.
Defined.

(** The folder PN-100 of the example root. *)
Lemma indexed_path_is_child_witness :
  exists p,
    lookup "PN-100"
      (rows (process_item "/mnt/nas" (nas_world 5) (mkRun stale_rows 0 0) "PN-100"))
      = Some p /\
    Path.fs_resolve p = ["mnt"; "nas"; "PN-100"] /\
    Path.inside_dir "/mnt/nas" p = true.
Proof.
  destruct (IndexerMore.indexed_path_is_child "/mnt/nas" (nas_world 5)
              (mkRun stale_rows 0 0) "PN-100" eq_refl eq_refl eq_refl)
    as [p [Hrow [Hres [Hin _]]]].
  exists p. split; [exact Hrow|]. split; [exact Hres|exact Hin].
Defined.

(** A listing of four entries: one indexed, two failed, one passed over. *)
Lemma counts_partition_witness :
  let result := startIndexing "/mnt/nas" (rough_world rough_listing 5) stale_rows in
  indexedCount result + errorCount result +
    List.length (filter (is_passed_over "/mnt/nas" (rough_world rough_listing 5))
                   rough_listing) = 4 /\
  startIndexing "/mnt/nas"
    (mkWorld false (inr rough_listing) rough_stat (fun _ => None) (fun _ => 5%Z))
    stale_rows = mkRun stale_rows 0 0.
Proof.
  split.
  - exact (proj1 (IndexerMore.counts_partition "/mnt/nas"
                    (rough_world rough_listing 5) stale_rows)
             rough_listing eq_refl eq_refl).
  - exact (proj2 (IndexerMore.counts_partition "/mnt/nas"
                    (mkWorld false (inr rough_listing) rough_stat
                       (fun _ => None) (fun _ => 5%Z)) stale_rows)
             (or_introl eq_refl)).
Defined.

Example rough_run :
  startIndexing "/mnt/nas" (rough_world rough_listing 5) stale_rows =
  mkRun [mkPeca "PN-900" "/mnt/old/PN-900" 1; mkPeca "PN-300" "/mnt/old/PN-300" 1;
         mkPeca "PN-100" "/mnt/nas/PN-100" 5] 1 2.
Proof. reflexivity. Qed.

(** The folder that has gone and the folder whose upsert failed keep
    their old rows. *)
Lemma run_keeps_other_rows_witness :
  let result := startIndexing "/mnt/nas" (rough_world rough_listing 5) stale_rows in
  lookup "PN-900" (rows result) = Some "/mnt/old/PN-900" /\
  lookup_time "PN-900" (rows result) = Some 1%Z /\
  lookup "PN-300" (rows result) = Some "/mnt/old/PN-300" /\
  In "PN-900" (codes (rows result)).
Proof.
  destruct (IndexerMore.run_keeps_other_rows "/mnt/nas"
              (rough_world rough_listing 5) stale_rows) as [Hkeep [Hcodes _]].
  destruct (Hkeep "PN-900" (fun _ _ _ _ => eq_refl)) as [Hpath Htime].
  destruct (Hkeep "PN-300" (fun _ _ _ _ => eq_refl)) as [Hpath' _].
  split; [exact Hpath|]. split; [exact Htime|]. split; [exact Hpath'|].
  apply Hcodes. simpl. auto.
Defined.

(** The listing in two orders, at two times. *)
Lemma order_independent_witness :
  let result := process_items "/mnt/nas" (rough_world rough_listing 5)
                  rough_listing (mkRun stale_rows 0 0) in
  let result' := process_items "/mnt/nas" (rough_world rough_listing 9)
                   ["PN-100"; "readme.txt"; "locked"; "PN-300"]
                   (mkRun stale_rows 0 0) in
  lookup "PN-100" (rows result) = lookup "PN-100" (rows result') /\
  indexedCount result = indexedCount result' /\
  errorCount result = errorCount result'.
Proof.
  assert (Hperm : Permutation rough_listing
                    ["PN-100"; "readme.txt"; "locked"; "PN-300"]).
  { unfold rough_listing.
    apply Permutation_sym.
    apply (Permutation_cons_app ["locked"; "PN-300"; "readme.txt"] [] "PN-100").
    rewrite app_nil_r.
    apply (Permutation_cons_app ["locked"; "PN-300"] [] "readme.txt").
    rewrite app_nil_r. apply Permutation_refl. }
  destruct (IndexerMore.order_independent "/mnt/nas"
              (rough_world rough_listing 5) (rough_world rough_listing 9)
              rough_listing ["PN-100"; "readme.txt"; "locked"; "PN-300"]
              (mkRun stale_rows 0 0) Hperm (fun _ => eq_refl) (fun _ => eq_refl))
    as [Hrows [Hix Herr]].
  split; [exact (proj1 (Hrows "PN-100"))|]. split; [exact Hix|exact Herr].
Defined.

(** PN-100 is indexed although two of its neighbours fail. *)
Lemma listed_directory_is_indexed_witness :
  let result := startIndexing "/mnt/nas" (rough_world rough_listing 5) stale_rows in
  lookup "PN-100" (rows result) = Some "/mnt/nas/PN-100" /\
  lookup_time "PN-100" (rows result) = Some 5%Z /\
  In "PN-100" (codes (rows result)).
Proof.
  exact (IndexerMore.listed_directory_is_indexed "/mnt/nas"
           (rough_world rough_listing 5) stale_rows rough_listing "PN-100"
           eq_refl eq_refl (or_intror (or_intror (or_intror (or_introl eq_refl))))
           eq_refl eq_refl).
Defined.

(** The example root is indexed into an empty table, and PN-100 is
    searched for. *)
Lemma indexed_folder_is_searchable_witness :
  let d := mkDb [] (rows (startIndexing "/mnt/nas" (nas_world 5) [])) 1 in
  fst (search (X := externals) world0 (search_request "PN-100") d) =
    Json 200
      (JObj [("cod_peca", JStr "PN-100");
             ("fotos", JArr [foto "PN-100" "a.jpg"; foto "PN-100" "b.png"])]).
Proof.
  apply (EndToEnd.indexed_folder_is_searchable (X := externals) "/mnt/nas"
           (nas_world 5) [] ["PN-100"; "PN-200"; "readme.txt"] "PN-100"
           (mkDb [] (rows (startIndexing "/mnt/nas" (nas_world 5) [])) 1)
           world0 (search_request "PN-100") ["a.jpg"; "b.png"; "notes.txt"]);
    try reflexivity.
  - now left.
  - discriminate.
Defined.

End MoreExamples.
